(** * a_j_midi: the ALSA receiver queue and the JACK cycle scheduler

    A shallow embedding of [src/alsa_receiver_queue.cpp] and of the timing part
    of [src/jack_client.cpp], followed by the properties of the two modules.

    Conventions of the embedding.
    - Time points and durations are integers ([Z]) counted in [SysTimeUnits];
      the 64-bit representation of [std::chrono] is not modelled.
    - A [std::future] is modelled by the contents of its shared state.  The
      chain hanging from [queueHead] is therefore a finite tree of nested
      futures, read as a snapshot: an operation that holds [queueAccessMutex]
      sees one snapshot, and the listener threads change the chain between
      two operations.
    - A callback that mutates captured variables is a function that transforms
      a value of a type [U] chosen by the caller.
    - A C++ function that may throw returns an [Outcome]; an exception that
      leaves a [noexcept] function ends the program ([Terminated]). *)

From Stdlib Require Import ZArith List Lia Bool String Sorted.
Import ListNotations.
Open Scope Z_scope.

(** ** Exceptions and outcomes of a call *)

Inductive Exception : Type :=
| InterruptedException
| runtime_error (what : string).

Inductive Outcome (S A : Type) : Type :=
| Returned (a : A) (s : S)
| Thrown (e : Exception) (s : S)
| Terminated.

Arguments Returned {S A} a s.
Arguments Thrown {S A} e s.
Arguments Terminated {S A}.

(** An exception that escapes a function declared [noexcept] calls
    [std::terminate]. *)
Definition noexcept {S A : Type} (o : Outcome S A) : Outcome S A :=
  match o with
  | Returned a s => Returned a s
  | Thrown _ _ => Terminated
  | Terminated => Terminated
  end.

Module alsaReceiverQueue.

Definition TimePoint : Type := Z.

Inductive State : Type :=
| stopped
| running.

Definition EAGAIN : Z := 11.

(** [checkAlsa]: a negative ALSA result is turned into an exception. *)
Definition checkAlsa {S : Type} (alsaResult : Z) (s : S) : Outcome S unit :=
  if alsaResult <? 0 then Thrown (runtime_error "ALSA problem") s
  else Returned tt s.

Section WithEvents.

Context {snd_seq_event_t : Type}.

(** [EventList] is a [std::forward_list]: the head of the Rocq list is the
    front of the list, which is where iteration starts. *)
Definition EventList : Type := list snd_seq_event_t.

(** The shared state behind a [FutureAlsaEvents].
    - [Invalid]: no shared state ([valid()] is false): default constructed,
      moved from, or already read with [get()].
    - [Polling]: the task of [startNextFuture] is inside the [while] loop of
      [listenForEvents]; the future is not ready.
    - [Packing next events]: the task has retrieved [events] and has launched
      [next] (line 327) but has not yet read the clock nor built its batch
      (line 330); the future is not ready.
    - [Batch next eventList timeStamp]: ready, holding an [AlsaEventBatch]
      with these three members.
    - [Raised e]: ready, holding the exception that ended the task. *)
Inductive FutureAlsaEvents : Type :=
| Invalid
| Polling
| Packing (next : FutureAlsaEvents) (events : EventList)
| Batch (next : FutureAlsaEvents) (eventList : EventList) (timeStamp : TimePoint)
| Raised (e : Exception).

(** The static variables of the translation unit. *)
Record QueueState : Type := mkQueueState {
  carryOnFlag : bool;
  stateFlag : State;
  currentEventBatchCount : Z;
  queueHead : FutureAlsaEvents
}.

Definition initialQueueState : QueueState :=
  {| carryOnFlag := false; stateFlag := stopped;
     currentEventBatchCount := 0; queueHead := Invalid |}.

Definition getCurrentEventBatchCount (q : QueueState) : Z :=
  currentEventBatchCount q.

Definition getState (q : QueueState) : State := stateFlag q.

Definition processCallback (U : Type) : Type :=
  snd_seq_event_t -> TimePoint -> U -> U.

Definition invokeClosureForeachEvent {U : Type} (eventsList : EventList)
    (current : TimePoint) (closure : processCallback U) (u : U) : U :=
  fold_left (fun acc event => closure event current acc) eventsList u.

Definition valid (f : FutureAlsaEvents) : bool :=
  match f with
  | Invalid => false
  | _ => true
  end.

(** [wait_for(0) == future_status::ready]. *)
Definition has_result_now (f : FutureAlsaEvents) : bool :=
  match f with
  | Batch _ _ _ | Raised _ => true
  | _ => false
  end.

Definition isReady (futureAlsaEvent : FutureAlsaEvents) : bool :=
  if negb (valid futureAlsaEvent) then false
  else has_result_now futureAlsaEvent.

(** [processInternal].  Every turn of the [while] loop replaces
    [queueHeadInternal] by the [next] member of the batch it has just read, so
    the loop is a recursion on the chain.  The globals it touches are the batch
    counter (the destructor of the consumed batch runs at the end of the [try]
    block) and whatever the closure captures.
    [get()] on a future that holds an exception rethrows it and leaves the
    future without shared state; only [InterruptedException] is caught. *)
Fixpoint processInternal {U : Type} (queueHeadInternal : FutureAlsaEvents)
    (deadline : TimePoint) (closure : processCallback U)
    (count : Z) (u : U) : Outcome (Z * U) FutureAlsaEvents :=
  match queueHeadInternal with
  | Batch next eventList timestamp =>
      if timestamp >? deadline then
        (* repacked into the future of a fresh, already satisfied promise *)
        Returned (Batch next eventList timestamp) (count, u)
      else
        processInternal next deadline closure (count - 1)
          (invokeClosureForeachEvent eventList timestamp closure u)
  | Raised InterruptedException => Returned Invalid (count, u)
  | Raised e => Thrown e (count, u)
  | notReady => Returned notReady (count, u)
  end.

Definition process {U : Type} (deadline : TimePoint)
    (closure : processCallback U) (q : QueueState) (u : U)
    : Outcome (QueueState * U) unit :=
  if valid (queueHead q) then
    noexcept
      match processInternal (queueHead q) deadline closure
              (currentEventBatchCount q) u with
      | Returned h (count, u') =>
          Returned tt
            ({| carryOnFlag := carryOnFlag q; stateFlag := stateFlag q;
                currentEventBatchCount := count; queueHead := h |}, u')
      | Thrown e (count, u') =>
          Thrown e
            ({| carryOnFlag := carryOnFlag q; stateFlag := stateFlag q;
                currentEventBatchCount := count; queueHead := Invalid |}, u')
      | Terminated => Terminated
      end
  else Returned tt (q, u).

(** Giving up a future: the value in its shared state is destroyed.  The
    destructor of an [AlsaEventBatch] decrements the counter and then destroys
    the member [_next].  Giving up the future of a running [std::async] task
    waits for the task: one that is polling ends (with [carryOnFlag] false, on
    [InterruptedException]), one that is packing builds its batch, which is
    destroyed right away. *)
Fixpoint release (f : FutureAlsaEvents) (count : Z) : Z :=
  match f with
  | Batch next _ _ => release next (count - 1)
  | Packing next _ => release next (count + 1 - 1)
  | _ => count
  end.

Definition stopInternal (q : QueueState) : QueueState :=
  {| carryOnFlag := false;
     stateFlag := stopped;
     currentEventBatchCount := release (queueHead q) (currentEventBatchCount q);
     queueHead := Invalid |}.

Definition stop (q : QueueState) : Outcome QueueState unit :=
  noexcept (Returned tt (stopInternal q)).

(** [startNextFuture]: the future of a task launched with [std::async] that
    begins [listenForEvents]. *)
Definition startNextFuture : FutureAlsaEvents := Polling.

Definition startInternal (q : QueueState)
    : Outcome QueueState FutureAlsaEvents :=
  match stateFlag q with
  | running =>
      Thrown
        (runtime_error "Cannot start the alsaReceiverQueue, it is already running.")
        (stopInternal q)
  | stopped =>
      Returned startNextFuture
        {| carryOnFlag := true; stateFlag := running;
           currentEventBatchCount := currentEventBatchCount q;
           queueHead := queueHead q |}
  end.

Definition start (q : QueueState) : Outcome QueueState unit :=
  match startInternal q with
  | Returned f q' =>
      Returned tt
        {| carryOnFlag := carryOnFlag q'; stateFlag := stateFlag q';
           currentEventBatchCount :=
             release (queueHead q') (currentEventBatchCount q');
           queueHead := f |}
  | Thrown e q' => Thrown e q'
  | Terminated => Terminated
  end.

Definition hasResult (q : QueueState) : bool := isReady (queueHead q).

(** *** The sequencer and the listener tasks *)

(** The ALSA sequencer as [snd_seq_event_input] shows it: a FIFO whose cells
    are events or, to inject a fault, the error code that the call returns
    when it reaches the cell.  On an event the call returns the number of
    cells still waiting (positive while there are more); on an empty FIFO it
    returns [-EAGAIN]; the event pointer is null whenever no event is
    returned. *)
Inductive SequencerCell : Type :=
| Incoming (event : snd_seq_event_t)
| Failure (code : Z).

Definition snd_seq_t : Type := list SequencerCell.

Definition snd_seq_event_input (cell : SequencerCell) (rest : snd_seq_t)
    : Z * option snd_seq_event_t :=
  match cell with
  | Incoming event => (Z.of_nat (List.length rest), Some event)
  | Failure code => (code, None)
  end.

(** [retrieveEvents]: the [do ... while (sequencerStatus > 0)] loop.  Each turn
    takes one cell, so the loop is a recursion on the FIFO; [eventList] is the
    list built so far, extended with [push_front]. *)
Fixpoint retrieveEvents_from (hSequencer : snd_seq_t) (eventList : EventList)
    : Outcome snd_seq_t EventList :=
  match hSequencer with
  | [] => Returned eventList []
  | cell :: rest =>
      let (sequencerStatus, eventPtr) := snd_seq_event_input cell rest in
      match (if sequencerStatus =? - EAGAIN then Returned tt rest
             else checkAlsa sequencerStatus rest) with
      | Returned _ _ =>
          let eventList' :=
            match eventPtr with
            | Some event => event :: eventList
            | None => eventList
            end in
          if sequencerStatus >? 0 then retrieveEvents_from rest eventList'
          else Returned eventList' rest
      | Thrown e s => Thrown e s
      | Terminated => Terminated
      end
  end.

Definition retrieveEvents (hSequencer : snd_seq_t)
    : Outcome snd_seq_t EventList :=
  retrieveEvents_from hSequencer [].

(** What one listener task can do next ([listenForEvents]). *)
Inductive ListenerAction : Type :=
| polls        (* a turn of the loop that finds no event *)
| retrieves    (* lines 324-327: events drained, next future launched *)
| stamps       (* line 330: clock read, batch built, task returns *)
| fails        (* [checkAlsa] throws *)
| interrupts.  (* the loop is left because [carryOnFlag] is false *)

(** One step of one listener task somewhere in the chain.  The tasks share
    the sequencer and the batch counter; [clock] is what [Sys_clock::now()]
    returns at this instant. *)
Inductive listenForEvents_step (carryOn : bool) (clock : TimePoint)
  : ListenerAction -> snd_seq_t -> Z -> FutureAlsaEvents
    -> snd_seq_t -> Z -> FutureAlsaEvents -> Prop :=
| task_polls : forall h h' count,
    carryOn = true ->
    retrieveEvents h = Returned [] h' ->
    listenForEvents_step carryOn clock polls h count Polling h' count Polling
| task_retrieves : forall h h' count events,
    carryOn = true ->
    retrieveEvents h = Returned events h' ->
    events <> [] ->
    listenForEvents_step carryOn clock retrieves h count Polling
      h' count (Packing startNextFuture events)
| task_stamps : forall h count next events,
    listenForEvents_step carryOn clock stamps h count (Packing next events)
      h (count + 1) (Batch next events clock)
| task_fails : forall h h' count e,
    carryOn = true ->
    retrieveEvents h = Thrown e h' ->
    listenForEvents_step carryOn clock fails h count Polling h' count (Raised e)
| task_interrupts : forall h count,
    carryOn = false ->
    listenForEvents_step carryOn clock interrupts h count Polling
      h count (Raised InterruptedException)
| task_behind_batch : forall a h h' count count' next next' events ts,
    listenForEvents_step carryOn clock a h count next h' count' next' ->
    listenForEvents_step carryOn clock a h count (Batch next events ts)
      h' count' (Batch next' events ts)
| task_behind_packing : forall a h h' count count' next next' events,
    listenForEvents_step carryOn clock a h count next h' count' next' ->
    listenForEvents_step carryOn clock a h count (Packing next events)
      h' count' (Packing next' events).

(** No task of the chain is between its [startNextFuture] and its clock
    read. *)
Fixpoint nobody_packing (f : FutureAlsaEvents) : bool :=
  match f with
  | Packing _ _ => false
  | Batch next _ _ => nobody_packing next
  | _ => true
  end.

(** The queue together with what surrounds it. *)
Record System : Type := mkSystem {
  clock : TimePoint;
  hSequencer : snd_seq_t;
  queue : QueueState
}.

Definition with_queue (s : System) (q : QueueState) : System :=
  {| clock := clock s; hSequencer := hSequencer s; queue := q |}.

Definition after_call {A : Type} (o : Outcome QueueState A)
    : option QueueState :=
  match o with
  | Returned _ q => Some q
  | Thrown _ q => Some q
  | Terminated => None
  end.

(** The states a program can be in: the control thread calls [start] and
    [stop], the realtime thread calls [process], the clock advances, events
    arrive, and the listener tasks run in any interleaving.  With
    [in_turn = true] a task drains the sequencer only when no earlier task is
    still packing; the source does not enforce this. *)
Inductive reachable (in_turn : bool) : System -> Prop :=
| reach_initial : forall t0,
    reachable in_turn
      {| clock := t0; hSequencer := []; queue := initialQueueState |}
| reach_tick : forall s (n : N),
    reachable in_turn s ->
    reachable in_turn
      {| clock := clock s + Z.of_N n; hSequencer := hSequencer s;
         queue := queue s |}
| reach_arrival : forall s cell,
    reachable in_turn s ->
    reachable in_turn
      {| clock := clock s; hSequencer := hSequencer s ++ [cell];
         queue := queue s |}
| reach_listener : forall s a h' count' head',
    reachable in_turn s ->
    listenForEvents_step (carryOnFlag (queue s)) (clock s) a
      (hSequencer s) (currentEventBatchCount (queue s)) (queueHead (queue s))
      h' count' head' ->
    (in_turn = true -> a = retrieves ->
     nobody_packing (queueHead (queue s)) = true) ->
    reachable in_turn
      {| clock := clock s; hSequencer := h';
         queue := {| carryOnFlag := carryOnFlag (queue s);
                     stateFlag := stateFlag (queue s);
                     currentEventBatchCount := count';
                     queueHead := head' |} |}
| reach_start : forall s q',
    reachable in_turn s ->
    after_call (start (queue s)) = Some q' ->
    reachable in_turn (with_queue s q')
| reach_stop : forall s q',
    reachable in_turn s ->
    after_call (stop (queue s)) = Some q' ->
    reachable in_turn (with_queue s q')
| reach_process : forall s (U : Type) (closure : processCallback U)
                         (u u' : U) deadline q',
    reachable in_turn s ->
    process deadline closure (queue s) u = Returned tt (q', u') ->
    reachable in_turn (with_queue s q').

(** *** Vocabulary of the properties *)

(** The batches that exist in a chain, oldest first; a batch behind a task
    that is still packing exists although [process] cannot reach it yet. *)
Fixpoint batches (f : FutureAlsaEvents) : list (EventList * TimePoint) :=
  match f with
  | Batch next eventList timeStamp => (eventList, timeStamp) :: batches next
  | Packing next _ => batches next
  | _ => []
  end.

(** The batches at the head of the chain that are ready and not later than
    the deadline, and the future that follows them. *)
Fixpoint due (deadline : TimePoint) (f : FutureAlsaEvents)
    : list (EventList * TimePoint) :=
  match f with
  | Batch next eventList timeStamp =>
      if timeStamp >? deadline then []
      else (eventList, timeStamp) :: due deadline next
  | _ => []
  end.

Fixpoint beyond (deadline : TimePoint) (f : FutureAlsaEvents)
    : FutureAlsaEvents :=
  match f with
  | Batch next eventList timeStamp =>
      if timeStamp >? deadline then f else beyond deadline next
  | _ => f
  end.

(** The chain with its first batches cut off. *)
Fixpoint chain_of (bs : list (EventList * TimePoint)) (f : FutureAlsaEvents)
    : FutureAlsaEvents :=
  match bs with
  | [] => f
  | (eventList, timeStamp) :: bs' => Batch (chain_of bs' f) eventList timeStamp
  end.

(** The queue after the due batches have been destroyed and [head] has been
    stored in [queueHead]. *)
Definition drained (q : QueueState) (deadline : TimePoint)
    (head : FutureAlsaEvents) : QueueState :=
  {| carryOnFlag := carryOnFlag q;
     stateFlag := stateFlag q;
     currentEventBatchCount :=
       currentEventBatchCount q
       - Z.of_nat (List.length (due deadline (queueHead q)));
     queueHead := head |}.

(** Two facts that hold between any two operations of a running program:
    the counter is the number of batches in the chain, and a stopped queue has
    no head. *)
Definition counter_exact (q : QueueState) : Prop :=
  currentEventBatchCount q = Z.of_nat (List.length (batches (queueHead q))).

Definition stopped_is_empty (q : QueueState) : Prop :=
  stateFlag q = stopped -> queueHead q = Invalid.

(** A future behind which nothing has been received yet. *)
Definition nothing_received (f : FutureAlsaEvents) : Prop :=
  batches f = [] /\ nobody_packing f = true.

(** The time stamps of the chain are not earlier than [lo], not later than
    the clock, and never decrease along the chain; a task that is packing is
    the last one that has received anything. *)
Fixpoint stamped_in_turn (clock lo : TimePoint) (f : FutureAlsaEvents) : Prop :=
  match f with
  | Batch next _ timeStamp =>
      lo <= timeStamp /\ timeStamp <= clock /\
      stamped_in_turn clock timeStamp next
  | Packing next _ => nothing_received next
  | _ => True
  end.

(** The calls of the closure that deliver a list of batches. *)
Definition deliveries (bs : list (EventList * TimePoint))
    : list (snd_seq_event_t * TimePoint) :=
  flat_map (fun b => map (fun event => (event, snd b)) (fst b)) bs.

(** Running a closure over a list of calls, and the closure that writes the
    calls it receives into a log. *)
Definition run_calls {U : Type} (closure : processCallback U)
    (calls : list (snd_seq_event_t * TimePoint)) (u : U) : U :=
  fold_left (fun acc call => closure (fst call) (snd call) acc) calls u.

Definition log_call : processCallback (list (snd_seq_event_t * TimePoint)) :=
  fun event timeStamp log => log ++ [(event, timeStamp)].

Definition timeStamps (f : FutureAlsaEvents) : list TimePoint :=
  map snd (batches f).

(** *** Further vocabulary *)

(** Every future of the chain has a shared state, and none holds the
    [InterruptedException] of a listener that was told to stop. *)
Fixpoint live (f : FutureAlsaEvents) : bool :=
  match f with
  | Invalid => false
  | Raised InterruptedException => false
  | Raised _ => true
  | Polling => true
  | Packing next _ => live next
  | Batch next _ _ => live next
  end.

(** Every list of events held in the chain is non-empty, and no batch is
    stamped later than [clock]. *)
Fixpoint well_stamped (clock : TimePoint) (f : FutureAlsaEvents) : Prop :=
  match f with
  | Batch next eventList timeStamp =>
      eventList <> [] /\ timeStamp <= clock /\ well_stamped clock next
  | Packing next events => events <> [] /\ well_stamped clock next
  | _ => True
  end.

End WithEvents.

Arguments FutureAlsaEvents : clear implicits.
Arguments QueueState : clear implicits.
Arguments EventList : clear implicits.
Arguments processCallback : clear implicits.
Arguments SequencerCell : clear implicits.
Arguments snd_seq_t : clear implicits.
Arguments System : clear implicits.

End alsaReceiverQueue.

Module jackClient.

Definition TimePoint : Type := Z.
Definition SysTimeUnits : Type := Z.

(** Modelled from the spec: [sys_clock.h] is not among the sources.  The spec
    gives the clock a nanosecond unit, so a microsecond is 1000 units. *)
Definition microsecond : SysTimeUnits := 1000.

Definition JITTER_COMPENSATION : SysTimeUnits := 500 * microsecond.

(** Modelled from the spec: [frames2duration] is declared in [jack_client.h],
    which is not among the sources.  It is the duration of a number of frames
    at the sample rate of the engine. *)
Definition frames2duration (sampleRate : positive) (frames : N) : SysTimeUnits :=
  Z.of_N frames * (1000000 * microsecond) / Z.pos sampleRate.

(** The value of an [int] after an arithmetic operation of
    [std::atomic<int>], which wraps around in two's complement. *)
Definition wrap_int (z : Z) : Z := (z + 2 ^ 31) mod 2 ^ 32 - 2 ^ 31.

(** The global timing variables. *)
Record Timing : Type := mkTiming {
  g_cycleLength : SysTimeUnits;
  g_previousDeadline : TimePoint;
  g_resetTimingCount : Z
}.

(** What the scheduler reads from outside during one cycle.
    - The clock: [lastReading] is the value of the latest [sysClock::now()];
      each further call returns a value later by the next entry of [delays]
      (by nothing once the list is used up), so the clock never runs
      backwards.
    - The answers of the JACK server: [cycleTimesError] is the result of
      [jack_get_cycle_times], [cyclePeriod] is [toSysTimeUnits(periodUsecs)],
      [framesSinceCycleStart] the result of [jack_frames_since_cycle_start]. *)
Record World : Type := mkWorld {
  lastReading : TimePoint;
  delays : list N;
  cycleTimesError : Z;
  cyclePeriod : SysTimeUnits;
  framesSinceCycleStart : N;
  sampleRate : positive
}.

(** A computation that reads the world and updates the timing variables. *)
Definition Jack (A : Type) : Type := World -> Timing -> A * World * Timing.

Definition ret {A : Type} (a : A) : Jack A := fun w t => (a, w, t).

Definition bind {A B : Type} (m : Jack A) (k : A -> Jack B) : Jack B :=
  fun w t => let '(a, w', t') := m w t in k a w' t'.

Declare Scope jack_scope.
Delimit Scope jack_scope with jack.
Notation "x <- m ;; k" := (bind m (fun x => k))
  (at level 61, m at next level, right associativity) : jack_scope.
Notation "m ;;; k" := (bind m (fun _ => k))
  (at level 61, right associativity) : jack_scope.

(** [sysClock::now()]. *)
Definition now : Jack TimePoint :=
  fun w t =>
    match delays w with
    | [] => (lastReading w, w, t)
    | d :: ds =>
        let reading := lastReading w + Z.of_N d in
        (reading,
         {| lastReading := reading; delays := ds;
            cycleTimesError := cycleTimesError w;
            cyclePeriod := cyclePeriod w;
            framesSinceCycleStart := framesSinceCycleStart w;
            sampleRate := sampleRate w |},
         t)
    end.

Definition jack_get_cycle_times : Jack (Z * SysTimeUnits) :=
  fun w t => ((cycleTimesError w, cyclePeriod w), w, t).

Definition jack_frames_since_cycle_start : Jack N :=
  fun w t => (framesSinceCycleStart w, w, t).

Definition jack_sample_rate : Jack positive :=
  fun w t => (sampleRate w, w, t).

Definition read {A : Type} (field : Timing -> A) : Jack A :=
  fun w t => (field t, w, t).

Definition set_cycleLength (v : SysTimeUnits) : Jack unit :=
  fun w t =>
    (tt, w, {| g_cycleLength := v;
               g_previousDeadline := g_previousDeadline t;
               g_resetTimingCount := g_resetTimingCount t |}).

Definition set_previousDeadline (v : TimePoint) : Jack unit :=
  fun w t =>
    (tt, w, {| g_cycleLength := g_cycleLength t;
               g_previousDeadline := v;
               g_resetTimingCount := g_resetTimingCount t |}).

Definition set_resetTimingCount (v : Z) : Jack unit :=
  fun w t =>
    (tt, w, {| g_cycleLength := g_cycleLength t;
               g_previousDeadline := g_previousDeadline t;
               g_resetTimingCount := v |}).

Local Open Scope jack_scope.

Definition invalidateTiming : Jack unit :=
  set_cycleLength 0 ;;;
  set_previousDeadline 0 ;;;
  set_resetTimingCount 0.

Definition resetTiming : Jack TimePoint :=
  count <- read g_resetTimingCount ;;
  set_resetTimingCount (wrap_int (count + 1)) ;;;
  answer <- jack_get_cycle_times ;;
  let (err, period) := (answer : Z * SysTimeUnits) in
  if negb (err =? 0) then
    now
  else
    set_cycleLength period ;;;
    framesSinceCycleStart <- jack_frames_since_cycle_start ;;
    rate <- jack_sample_rate ;;
    current <- now ;;
    let newDeadline :=
      current - frames2duration rate framesSinceCycleStart
      - JITTER_COMPENSATION in
    set_previousDeadline newDeadline ;;;
    ret newDeadline.

Definition isPlausible (deadline : TimePoint) : Jack bool :=
  latestPossible <- now ;;
  if deadline >=? latestPossible then ret false
  else
    current <- now ;;
    cycleLength <- read g_cycleLength ;;
    let earliestPossible := current - cycleLength - JITTER_COMPENSATION in
    if deadline <? earliestPossible then ret false
    else ret true.

Definition newDeadline : Jack TimePoint :=
  previousDeadline <- read g_previousDeadline ;;
  cycleLength <- read g_cycleLength ;;
  let tentativeDeadline := previousDeadline + cycleLength in
  plausible <- isPlausible tentativeDeadline ;;
  if (plausible : bool) then
    set_previousDeadline tentativeDeadline ;;;
    ret tentativeDeadline
  else resetTiming.

Local Close Scope jack_scope.

(** *** Vocabulary of the properties *)

Definition result {A : Type} (r : A * World * Timing) : A := fst (fst r).
Definition world_after {A : Type} (r : A * World * Timing) : World :=
  snd (fst r).
Definition timing_after {A : Type} (r : A * World * Timing) : Timing := snd r.

(** The state that [invalidateTiming] leaves, up to the counter. *)
Definition invalidated (t : Timing) : Prop :=
  g_cycleLength t = 0 /\ g_previousDeadline t = 0.

(** The timing after [activate] has called [invalidateTiming]. *)
Definition timingAtActivation : Timing :=
  {| g_cycleLength := 0; g_previousDeadline := 0; g_resetTimingCount := 0 |}.

(** A call of [newDeadline] takes the slow path when it calls [resetTiming],
    which is the only place where the counter changes. *)
Definition resyncs (w : World) (t : Timing) : bool :=
  negb (result (isPlausible (g_previousDeadline t + g_cycleLength t) w t)).

(** The first and the second clock reading that a computation makes. *)
Definition firstReading (w : World) : TimePoint :=
  result (now w timingAtActivation).

Definition secondReading (w : World) : TimePoint :=
  firstReading (world_after (now w timingAtActivation)).

(** A world in which the clock stands at [t] for the whole cycle and the
    server answers every query. *)
Definition steadyWorld (t : TimePoint) (period : SysTimeUnits) (frames : N)
    (rate : positive) : World :=
  {| lastReading := t; delays := []; cycleTimesError := 0;
     cyclePeriod := period; framesSinceCycleStart := frames;
     sampleRate := rate |}.

(** The same with a server that fails with [err]. *)
Definition faultyWorld (t : TimePoint) (err : Z) : World :=
  {| lastReading := t; delays := []; cycleTimesError := err;
     cyclePeriod := 0; framesSinceCycleStart := 0; sampleRate := 48000 |}.

(** The timing after the realtime callback has run [newDeadline] in each of
    the worlds in turn. *)
Definition cycles (worlds : list World) (t : Timing) : Timing :=
  fold_left (fun timing w => timing_after (newDeadline w timing)) worlds t.

(** Cycles whose callbacks run at [t0], [t0 + period], [t0 + 2 period], ...:
    [regularWorld k] is the world of cycle [k], in which the server reports
    [frames k]; [timingBefore k] is the timing that cycle [k] finds, the session
    having begun with [invalidateTiming]. *)
Definition regularWorld (t0 : TimePoint) (period : SysTimeUnits)
    (frames : nat -> N) (rate : positive) (k : nat) : World :=
  steadyWorld (t0 + Z.of_nat k * period) period (frames k) rate.

Definition regularWorlds (t0 : TimePoint) (period : SysTimeUnits)
    (frames : nat -> N) (rate : positive) (n : nat) : list World :=
  map (regularWorld t0 period frames rate) (seq 0 n).

Definition timingBefore (t0 : TimePoint) (period : SysTimeUnits)
    (frames : nat -> N) (rate : positive) (k : nat) : Timing :=
  cycles (regularWorlds t0 period frames rate k) timingAtActivation.

(** The timing after one resync, seen at the instant [t] of the next
    callback: the cycle length is the period, and the previous deadline plus
    one period lies in the window that [isPlausible] accepts at [t]. *)
Definition settled (period : SysTimeUnits) (t : TimePoint) (timing : Timing)
    : Prop :=
  g_cycleLength timing = period /\
  g_resetTimingCount timing = 1 /\
  t - period - JITTER_COMPENSATION <= g_previousDeadline timing + period /\
  g_previousDeadline timing + period <= t - JITTER_COMPENSATION.

(** The deadline that cycle [k] of such a session hands to the callback. *)
Definition deadlineOf (t0 : TimePoint) (period : SysTimeUnits)
    (frames : nat -> N) (rate : positive) (k : nat) : TimePoint :=
  result (newDeadline (regularWorld t0 period frames rate k)
            (timingBefore t0 period frames rate k)).

(** *** Opening, activating, stopping and closing the client

    The part of [jack_client.cpp] around [g_stateFlag].  The answers of the
    JACK server are arguments of the operations.  [jack_client.h] is not among
    the sources: the three states are those that [stateAsString] names, the
    exceptions are those that the operations throw. *)
Module Lifecycle.

Inductive State : Type :=
| closed
| idle
| running.

Definition stateAsString (state : State) : string :=
  match state with
  | closed => "closed"
  | idle => "idle"
  | running => "running"
  end.

Inductive JackException : Type :=
| BadStateException (what : string)
| ServerNotRunningException
| ServerException (what : string).

(** How a call ends: it returns, it throws, or it hands a null
    [g_hJackClient] to a function of the JACK library, which the library does
    not define. *)
Inductive Attempt (S A : Type) : Type :=
| Done (a : A) (s : S)
| Raises (e : JackException) (s : S)
| NullHandle.

Arguments Done {S A} a s.
Arguments Raises {S A} e s.
Arguments NullHandle {S A}.

(** The state in which a call leaves the client, when it leaves one. *)
Definition settle {S A : Type} (o : Attempt S A) : option S :=
  match o with
  | Done _ s => Some s
  | Raises _ s => Some s
  | NullHandle => None
  end.

(** What a [jack_client_t] handle stands for: the server knows the client
    under a name. *)
Record jack_client_t : Type := mkJackClient {
  jack_get_client_name : string
}.

Section WithCallback.

Context {U : Type}.

(** [ProcessCallback]: called with the number of frames and the deadline,
    returns 0 or an error code, and may change what it captures. *)
Definition ProcessCallback : Type := N -> TimePoint -> U -> Z * U.

(** The global variables. *)
Record Client : Type := mkClient {
  g_hJackClient : option jack_client_t;
  g_stateFlag : State;
  g_customCallback : option ProcessCallback;
  g_timing : Timing
}.

(** The values the globals are initialised with. *)
Definition initialClient : Client :=
  {| g_hJackClient := None; g_stateFlag := closed;
     g_customCallback := None; g_timing := timingAtActivation |}.

Definition stateInternal (c : Client) : State := g_stateFlag c.

Definition state (c : Client) : State := stateInternal c.

Definition clientNameInternal (c : Client) : Attempt Client string :=
  match g_stateFlag c with
  | closed => Done EmptyString c
  | _ =>
      match g_hJackClient c with
      | Some h => Done (jack_get_client_name h) c
      | None => NullHandle
      end
  end.

Definition deviceName (c : Client) : Attempt Client string :=
  clientNameInternal c.

(** [stopInternal]: [deactivateError] is the result of [jack_deactivate],
    which is only logged. *)
Definition stopInternal (deactivateError : Z) (c : Client) : Client :=
  match g_stateFlag c with
  | closed | idle => c
  | running =>
      {| g_hJackClient := g_hJackClient c; g_stateFlag := idle;
         g_customCallback := g_customCallback c; g_timing := g_timing c |}
  end.

Definition stop (deactivateError : Z) (c : Client) : Client :=
  stopInternal deactivateError c.

(** [close]: [closeError] is the result of [jack_client_close], which is only
    logged. *)
Definition close (deactivateError closeError : Z) (c : Client) : Client :=
  match g_stateFlag c with
  | closed => c
  | _ =>
      let c' := stopInternal deactivateError c in
      {| g_hJackClient := None; g_stateFlag := closed;
         g_customCallback := g_customCallback c'; g_timing := g_timing c' |}
  end.

(** [open]: [jack_client_open] is the answer of the server to the name and
    the option it is asked with. *)
Definition open (jack_client_open : string -> bool -> option jack_client_t)
    (deviceName : string) (noStartServer : bool) (c : Client)
    : Attempt Client unit :=
  match g_stateFlag c with
  | closed =>
      match jack_client_open deviceName noStartServer with
      | None =>
          Raises ServerNotRunningException
            {| g_hJackClient := None; g_stateFlag := g_stateFlag c;
               g_customCallback := g_customCallback c;
               g_timing := g_timing c |}
      | Some h =>
          Done tt
            {| g_hJackClient := Some h; g_stateFlag := idle;
               g_customCallback := g_customCallback c;
               g_timing := g_timing c |}
      end
  | st =>
      Raises
        (BadStateException
           ("Cannot open JACK client. Wrong state " ++ stateAsString st))
        c
  end.

(** [activate]: [w] is the world at the time of the call, [activateError] is
    the result of [jack_activate]. *)
Definition activate (w : World) (activateError : Z) (c : Client)
    : Attempt Client unit :=
  match g_stateFlag c with
  | idle =>
      let c' :=
        {| g_hJackClient := g_hJackClient c; g_stateFlag := g_stateFlag c;
           g_customCallback := g_customCallback c;
           g_timing := timing_after (invalidateTiming w (g_timing c)) |} in
      match g_hJackClient c with
      | None => NullHandle
      | Some _ =>
          if negb (activateError =? 0) then
            Raises (ServerException "Failed to activate JACK client!") c'
          else
            Done tt
              {| g_hJackClient := g_hJackClient c'; g_stateFlag := running;
                 g_customCallback := g_customCallback c';
                 g_timing := g_timing c' |}
      end
  | st =>
      Raises
        (BadStateException
           ("Cannot activate JACK client. Wrong state " ++ stateAsString st))
        c
  end.

(** [registerProcessCallback]: [registerError] is the result of
    [jack_set_process_callback]. *)
Definition registerProcessCallback (processCallback : ProcessCallback)
    (registerError : Z) (c : Client) : Attempt Client unit :=
  match g_stateFlag c with
  | idle =>
      let c' :=
        {| g_hJackClient := g_hJackClient c; g_stateFlag := g_stateFlag c;
           g_customCallback := Some processCallback;
           g_timing := g_timing c |} in
      match g_hJackClient c with
      | None => NullHandle
      | Some _ =>
          if negb (registerError =? 0) then
            Raises (ServerException "JACK error when registering callback.") c'
          else Done tt c'
      end
  | st =>
      Raises
        (BadStateException
           ("Cannot register callback. Wrong state " ++ stateAsString st))
        c
  end.

(** [jackInternalCallback]: what the server calls on each cycle. *)
Definition jackInternalCallback (nFrames : N) (w : World) (c : Client) (u : U)
    : Z * World * Client * U :=
  match g_customCallback c with
  | Some customCallback =>
      let '(deadline, w', timing') := newDeadline w (g_timing c) in
      let (status, u') := customCallback nFrames deadline u in
      (status, w',
       {| g_hJackClient := g_hJackClient c; g_stateFlag := g_stateFlag c;
          g_customCallback := g_customCallback c; g_timing := timing' |},
       u')
  | None => (0, w, c, u)
  end.

(** The states of the client that a program can reach: any calls of the
    operations, with any answers of the server, and any cycles. *)
Inductive client_reachable : Client -> Prop :=
| reach_initialClient : client_reachable initialClient
| reach_open : forall c server name noStartServer c',
    client_reachable c ->
    settle (open server name noStartServer c) = Some c' ->
    client_reachable c'
| reach_close : forall c deactivateError closeError,
    client_reachable c ->
    client_reachable (close deactivateError closeError c)
| reach_stopped : forall c deactivateError,
    client_reachable c ->
    client_reachable (stop deactivateError c)
| reach_activate : forall c w activateError c',
    client_reachable c ->
    settle (activate w activateError c) = Some c' ->
    client_reachable c'
| reach_register : forall c callback registerError c',
    client_reachable c ->
    settle (registerProcessCallback callback registerError c) = Some c' ->
    client_reachable c'
| reach_cycle : forall c nFrames w u status w' c' u',
    client_reachable c ->
    jackInternalCallback nFrames w c u = (status, w', c', u') ->
    client_reachable c'.

End WithCallback.

Arguments ProcessCallback : clear implicits.
Arguments Client : clear implicits.

End Lifecycle.

End jackClient.

(** * Scenarios

    Concrete sessions, with MIDI note numbers as events, against which the
    properties are checked. *)

Module Scenario.

Import alsaReceiverQueue.

Definition listening (carryOn : bool) (st : State) (count : Z)
    (head : FutureAlsaEvents Z) : QueueState Z :=
  {| carryOnFlag := carryOn; stateFlag := st;
     currentEventBatchCount := count; queueHead := head |}.

(** Before the first [start]. *)
Definition idle : System Z :=
  {| clock := 100; hSequencer := []; queue := initialQueueState |}.

(** After [start]: one listener, nothing received. *)
Definition started : System Z :=
  {| clock := 100; hSequencer := [];
     queue := listening true running 0 Polling |}.

(** After [start], one note has arrived and has been retrieved; the task has
    not read the clock yet. *)
Definition first_retrieved : System Z :=
  {| clock := 100; hSequencer := [];
     queue := listening true running 0 (Packing Polling [60]) |}.

(** After [start], one note has arrived, has been retrieved and stamped. *)
Definition one_queued : System Z :=
  {| clock := 100; hSequencer := [];
     queue := listening true running 1 (Batch Polling [60] 100) |}.

(** After [start], a note arrives and is retrieved by the first task; before
    this task reads the clock a second note arrives, is retrieved and stamped
    at 100 by the second task; the first task reads the clock at 105. *)
Definition overtaken : System Z :=
  {| clock := 105; hSequencer := [];
     queue := listening true running 2
                (Batch (Batch Polling [64] 100) [60] 105) |}.

(** As [one_queued], then a second note arrives, is retrieved, and is stamped
    at 105 by the second task. *)
Definition two_queued : System Z :=
  {| clock := 105; hSequencer := [];
     queue := listening true running 2
                (Batch (Batch Polling [64] 105) [60] 100) |}.

(** After [start], the sequencer answers [snd_seq_event_input] with the
    error -19 and the listener ends on the exception of [checkAlsa]. *)
Definition failed : System Z :=
  {| clock := 100; hSequencer := [];
     queue := listening true running 0
                (Raised (runtime_error "ALSA problem")) |}.

(** Three batches stamped 1, 2 and 5, and a listener waiting for more. *)
Definition three_batches : QueueState Z :=
  listening true running 3
    (Batch (Batch (Batch Polling [67] 5) [62; 64] 2) [60] 1).

(** The scheduler has resynced once: cycles of 1 ms, previous deadline at
    10 ms. *)
Definition staleTiming : jackClient.Timing :=
  {| jackClient.g_cycleLength := 1000000;
     jackClient.g_previousDeadline := 10000000;
     jackClient.g_resetTimingCount := 1 |}.

(** The callback runs 0.1 ms early, at 10.9 ms, and the server cannot give
    the cycle times. *)
Definition earlyCallback : jackClient.World :=
  jackClient.faultyWorld 10900000 (-1).

(** A cycle in which the clock reads one second at the first reading and
    10 units more at the second. *)
Definition tickingWorld : jackClient.World :=
  {| jackClient.lastReading := 1000000000;
     jackClient.delays := [0%N; 10%N];
     jackClient.cycleTimesError := 0;
     jackClient.cyclePeriod := 1000000;
     jackClient.framesSinceCycleStart := 0;
     jackClient.sampleRate := 48000 |}.

(** The next callback, one cycle later. *)
Definition nextCallback : jackClient.World :=
  jackClient.steadyWorld 11900000 1000000 0 48000.

(** The first callback after activation, one second after the epoch of the
    clock, with a server that cannot give the cycle times. *)
Definition firstCallbackFails : jackClient.World :=
  jackClient.faultyWorld 1000000000 (-1).

(** At 48 kHz, 24 frames last 0.5 ms and 96 frames last 2 ms. *)
Definition halfwayFrames (k : nat) : N := 24%N.
Definition overdueFrames (k : nat) : N := 96%N.

(** A JACK server that is running and accepts the name it is asked for. *)
Definition answeringServer (name : string) (noStartServer : bool)
    : option jackClient.Lifecycle.jack_client_t :=
  Some (jackClient.Lifecycle.mkJackClient name).

(** A process callback that writes down the deadlines it is given. *)
Definition logDeadline
    : jackClient.Lifecycle.ProcessCallback (list jackClient.TimePoint) :=
  fun nFrames deadline log => (0, log ++ [deadline]).

(** A client that has been opened under the name "bridge" and has registered
    [logDeadline]. *)
Definition registered
    : jackClient.Lifecycle.Client (list jackClient.TimePoint) :=
  {| jackClient.Lifecycle.g_hJackClient :=
       Some (jackClient.Lifecycle.mkJackClient "bridge");
     jackClient.Lifecycle.g_stateFlag := jackClient.Lifecycle.idle;
     jackClient.Lifecycle.g_customCallback := Some logDeadline;
     jackClient.Lifecycle.g_timing := jackClient.timingAtActivation |}.

(** The same client after [activate]. *)
Definition activated
    : jackClient.Lifecycle.Client (list jackClient.TimePoint) :=
  {| jackClient.Lifecycle.g_hJackClient :=
       Some (jackClient.Lifecycle.mkJackClient "bridge");
     jackClient.Lifecycle.g_stateFlag := jackClient.Lifecycle.running;
     jackClient.Lifecycle.g_customCallback := Some logDeadline;
     jackClient.Lifecycle.g_timing := jackClient.timingAtActivation |}.

(** The first cycle: one second after the epoch, 24 frames into a cycle of
    1 ms. *)
Definition firstCycle : jackClient.World :=
  jackClient.steadyWorld 1000000000 1000000 24 48000.

End Scenario.

(** * Properties of the receiver queue *)

Import alsaReceiverQueue.

Section QueueProperties.

Context {Event : Type}.

Local Abbreviation Future := (FutureAlsaEvents Event).
Local Abbreviation Queue := (QueueState Event).

(** ** The closure calls of one batch and of several *)

Lemma run_calls_app : forall (U : Type) (closure : processCallback Event U)
    calls calls' u,
  run_calls closure (calls ++ calls') u =
  run_calls closure calls' (run_calls closure calls u).
Proof.
  intros. unfold run_calls. apply fold_left_app.
Qed.

Lemma invokeClosureForeachEvent_calls :
  forall (U : Type) (closure : processCallback Event U) events current u,
  invokeClosureForeachEvent events current closure u =
  run_calls closure (map (fun event => (event, current)) events) u.
Proof.
  intros U closure events current.
  unfold invokeClosureForeachEvent, run_calls.
  induction events as [| event events IH]; intro u; simpl.
  - reflexivity.
  - apply IH.
Qed.

Lemma run_calls_log : forall (calls log : list (Event * TimePoint)),
  run_calls log_call calls log = log ++ calls.
Proof.
  unfold run_calls, log_call.
  induction calls as [| call calls IH]; intro log; simpl.
  - now rewrite app_nil_r.
  - rewrite IH, <- app_assoc. now destruct call.
Qed.

(** ** The loop of [processInternal] *)

Lemma isReady_false_not_consumed : forall (f : Future) deadline,
  isReady f = false -> due deadline f = [] /\ beyond deadline f = f.
Proof.
  intros f deadline. destruct f; simpl; intro H; try discriminate; auto.
Qed.

Lemma chain_is_due_then_beyond : forall deadline (f : Future),
  f = chain_of (due deadline f) (beyond deadline f).
Proof.
  intros deadline f.
  induction f as [| | next IH events | next IH events ts | e]; simpl; auto.
  destruct (ts >? deadline) eqn:Hts; simpl.
  - reflexivity.
  - now rewrite <- IH.
Qed.

Lemma due_not_after_deadline : forall deadline (f : Future),
  Forall (fun b => snd b <= deadline) (due deadline f).
Proof.
  intros deadline f.
  induction f as [| | next IH events | next IH events ts | e]; simpl; auto.
  destruct (ts >? deadline) eqn:Hts; auto.
  constructor; auto. simpl. lia.
Qed.

Lemma beyond_is_after_deadline : forall deadline (f next : Future) events ts,
  beyond deadline f = Batch next events ts -> ts > deadline.
Proof.
  intros deadline f.
  induction f as [| | n IH evs | n IH evs t | e]; simpl; intros next events ts H;
    try discriminate.
  destruct (t >? deadline) eqn:Ht.
  - inversion H; subst. lia.
  - eauto.
Qed.

Lemma batches_of_chain : forall bs (f : Future),
  batches (chain_of bs f) = bs ++ batches f.
Proof.
  induction bs as [| [events ts] bs IH]; intro f; simpl.
  - reflexivity.
  - now rewrite IH.
Qed.

(** What the loop returns from any chain: the closure has run over the due
    batches in chain order, their destructors have run, and the future at
    which the loop stopped decides how the function is left. *)
Lemma processInternal_unfolded :
  forall (U : Type) (closure : processCallback Event U) deadline
         (f : Future) count u,
  processInternal f deadline closure count u =
  let state :=
    (count - Z.of_nat (List.length (due deadline f)),
     run_calls closure (deliveries (due deadline f)) u) in
  match beyond deadline f with
  | Raised InterruptedException => Returned Invalid state
  | Raised e => Thrown e state
  | rest => Returned rest state
  end.
Proof.
  intros U closure deadline f.
  induction f as [| | next IH events | next IH events ts | e];
    intros count u; simpl.
  - now rewrite Z.sub_0_r.
  - now rewrite Z.sub_0_r.
  - now rewrite Z.sub_0_r.
  - destruct (ts >? deadline) eqn:Hts.
    + simpl. now rewrite Z.sub_0_r.
    + rewrite IH. cbn [List.length deliveries flat_map fst snd].
      fold (deliveries (due deadline next)).
      rewrite run_calls_app, <- invokeClosureForeachEvent_calls.
      replace (count - 1 - Z.of_nat (List.length (due deadline next)))
        with (count - Z.of_nat (S (List.length (due deadline next)))) by lia.
      reflexivity.
  - destruct e; simpl; now rewrite Z.sub_0_r.
Qed.

Lemma process_unfolded :
  forall (U : Type) (closure : processCallback Event U) deadline (q : Queue) u,
  process deadline closure q u =
  match beyond deadline (queueHead q) with
  | Raised InterruptedException =>
      Returned tt (drained q deadline Invalid,
                   run_calls closure (deliveries (due deadline (queueHead q))) u)
  | Raised _ => Terminated
  | rest =>
      Returned tt (drained q deadline rest,
                   run_calls closure (deliveries (due deadline (queueHead q))) u)
  end.
Proof.
  intros U closure deadline q u. unfold process.
  destruct (valid (queueHead q)) eqn:Hvalid.
  - rewrite processInternal_unfolded. cbv zeta.
    destruct (beyond deadline (queueHead q)) as [| | | | []]; reflexivity.
  - destruct q as [carry st count head]. simpl in *.
    destruct head; try discriminate. simpl. unfold drained. simpl.
    now rewrite Z.sub_0_r.
Qed.

Lemma process_returns_head :
  forall (U : Type) (closure : processCallback Event U) deadline (q q' : Queue)
         u u',
  process deadline closure q u = Returned tt (q', u') ->
  q' = drained q deadline (queueHead q') /\
  u' = run_calls closure (deliveries (due deadline (queueHead q))) u /\
  (queueHead q' = beyond deadline (queueHead q) \/
   queueHead q' = Invalid /\
   beyond deadline (queueHead q) = Raised InterruptedException).
Proof.
  intros U closure deadline q q' u u' H.
  rewrite process_unfolded in H.
  destruct (beyond deadline (queueHead q)) as [| | | | []] eqn:Hb;
    inversion H; subst; simpl; auto.
Qed.

(** ** What holds in every state of a running program *)

Lemma release_count : forall (f : Future) count,
  release f count = count - Z.of_nat (List.length (batches f)).
Proof.
  induction f as [| | next IH events | next IH events ts | e];
    intro count; simpl release; simpl batches; try (simpl; lia).
  - rewrite IH. lia.
  - rewrite IH. simpl List.length. lia.
Qed.

Lemma listenForEvents_step_valid :
  forall carryOn now a h count (f : Future) h' count' f',
  listenForEvents_step carryOn now a h count f h' count' f' ->
  valid f = true /\ valid f' = true.
Proof.
  intros carryOn now a h count f h' count' f' Hstep.
  destruct Hstep; simpl; auto.
Qed.

Lemma listenForEvents_step_count :
  forall carryOn now a h count (f : Future) h' count' f',
  listenForEvents_step carryOn now a h count f h' count' f' ->
  count' - Z.of_nat (List.length (batches f')) =
  count - Z.of_nat (List.length (batches f)).
Proof.
  intros carryOn now a h count f h' count' f' Hstep.
  induction Hstep; simpl batches; simpl List.length; lia.
Qed.

Lemma reachable_consistent : forall in_turn (s : System Event),
  reachable in_turn s ->
  stopped_is_empty (queue s) /\ counter_exact (queue s).
Proof.
  intros in_turn s Hreach.
  induction Hreach as
    [ t0
    | s n Hreach [IHe IHc]
    | s cell Hreach [IHe IHc]
    | s a h' count' head' Hreach [IHe IHc] Hstep Hturn
    | s q' Hreach [IHe IHc] Hcall
    | s q' Hreach [IHe IHc] Hcall
    | s U closure u u' deadline q' Hreach [IHe IHc] Hcall ];
    unfold stopped_is_empty, counter_exact in *; simpl.
  - auto.
  - auto.
  - auto.
  - pose proof (listenForEvents_step_valid _ _ _ _ _ _ _ _ _ Hstep) as [Hv _].
    pose proof (listenForEvents_step_count _ _ _ _ _ _ _ _ _ Hstep) as Hc.
    split.
    + intro Hs. rewrite (IHe Hs) in Hv. discriminate.
    + lia.
  - unfold start, startInternal in Hcall.
    destruct (stateFlag (queue s)) eqn:Hstate; simpl in Hcall;
      inversion Hcall; subst; simpl.
    + split; [discriminate |]. rewrite release_count. lia.
    + split; [reflexivity |]. rewrite release_count. lia.
  - unfold stop in Hcall. simpl in Hcall. inversion Hcall; subst; simpl.
    split; [reflexivity |]. rewrite release_count. lia.
  - apply process_returns_head in Hcall as (Hq' & _ & Hhead).
    pose proof (chain_is_due_then_beyond deadline (queueHead (queue s))) as Hch.
    apply (f_equal batches) in Hch. rewrite batches_of_chain in Hch.
    apply (f_equal (@List.length _)) in Hch. rewrite length_app in Hch.
    rewrite Hq'. simpl. split.
    + intro Hs. specialize (IHe Hs).
      destruct Hhead as [Hh | [Hh _]]; [| exact Hh].
      rewrite Hh, IHe. reflexivity.
    + destruct Hhead as [Hh | [Hh Hb]].
      * rewrite Hh. lia.
      * rewrite Hh. rewrite Hb in Hch. simpl in *. lia.
Qed.

(** A call that finds no valid head does nothing. *)
Lemma process_without_head :
  forall (U : Type) (closure : processCallback Event U) deadline (q : Queue) u,
  valid (queueHead q) = false ->
  process deadline closure q u = Returned tt (q, u).
Proof.
  intros U closure deadline q u H. unfold process. now rewrite H.
Qed.

(** ** The operations of the queue *)

(** C10. When the queue is stopped, or has never been started, its head
    future is not valid; and whenever the head is not valid, [process] does
    nothing for any deadline and any closure: it returns normally, the closure
    is not called (what it captures is unchanged), and the head, the state
    flag, the carry-on flag and the batch counter are what they were. *)
Theorem process_on_stopped_queue_is_noop :
  forall in_turn (s : System Event),
  reachable in_turn s ->
  (getState (queue s) = stopped -> valid (queueHead (queue s)) = false) /\
  (valid (queueHead (queue s)) = false ->
   forall (U : Type) (closure : processCallback Event U) deadline u,
   process deadline closure (queue s) u = Returned tt (queue s, u)).
Proof.
  intros in_turn s Hreach.
  destruct (reachable_consistent _ _ Hreach) as [Hempty _].
  split.
  - intro Hstopped. unfold getState in Hstopped.
    rewrite (Hempty Hstopped). reflexivity.
  - intros Hv U closure deadline u. now apply process_without_head.
Qed.

(** C9. [stop] always returns normally, and it leaves the state flag at
    [stopped], the carry-on flag cleared and no head.  In every state that a
    program reaches by starting, receiving batches, processing and stopping,
    whatever the number of queued batches, the batch counter is 0 after
    [stop]. *)
Theorem stop_empties_the_queue :
  forall in_turn (s : System Event),
  reachable in_turn s ->
  exists q',
    stop (queue s) = Returned tt q' /\
    getState q' = stopped /\
    carryOnFlag q' = false /\
    queueHead q' = Invalid /\
    getCurrentEventBatchCount q' = 0.
Proof.
  intros in_turn s Hreach.
  destruct (reachable_consistent _ _ Hreach) as [_ Hcount].
  exists (stopInternal (queue s)). repeat split.
  unfold getCurrentEventBatchCount, stopInternal. simpl.
  rewrite release_count. unfold counter_exact in Hcount. lia.
Qed.

(** C1. For every deadline and every chain, [process] consumes exactly the
    batches at the head of the chain that are ready and not later than the
    deadline ([due]): the chain is these batches followed by the future where
    the loop stops ([beyond]), which is not a ready batch within the deadline.
    The closure is called once for each event of each consumed batch, in
    order, with the time stamp of the batch, and the counter drops by the
    number of consumed batches.  A ready batch later than the deadline, and
    likewise a future that is not ready, becomes the new head unchanged, so no
    batch is lost; a future interrupted by [stop] leaves no head.  After a call
    that returns, a head that is ready holds a batch later than the
    deadline. *)
Theorem process_drains_until_deadline :
  forall (U : Type) (closure : processCallback Event U) deadline (q : Queue) u,
  let consumed := due deadline (queueHead q) in
  let rest := beyond deadline (queueHead q) in
  queueHead q = chain_of consumed rest /\
  Forall (fun b => snd b <= deadline) consumed /\
  (forall next events ts, rest = Batch next events ts -> ts > deadline) /\
  (isReady (queueHead q) = false -> consumed = [] /\ rest = queueHead q) /\
  match rest with
  | Raised InterruptedException =>
      process deadline closure q u =
      Returned tt (drained q deadline Invalid,
                   run_calls closure (deliveries consumed) u)
  | Raised _ => process deadline closure q u = Terminated
  | _ =>
      process deadline closure q u =
      Returned tt (drained q deadline rest,
                   run_calls closure (deliveries consumed) u)
  end /\
  (forall q' u',
     process deadline closure q u = Returned tt (q', u') ->
     isReady (queueHead q') = true ->
     exists next events ts,
       queueHead q' = Batch next events ts /\ ts > deadline /\
       rest = Batch next events ts).
Proof.
  intros U closure deadline q u consumed rest. subst consumed rest.
  split; [apply chain_is_due_then_beyond |].
  split; [apply due_not_after_deadline |].
  split; [intros next events ts; apply beyond_is_after_deadline |].
  split; [apply isReady_false_not_consumed |].
  split.
  - rewrite process_unfolded.
    destruct (beyond deadline (queueHead q)) as [| | | | []]; reflexivity.
  - intros q' u' Hcall Hready. rewrite process_unfolded in Hcall.
    destruct (beyond deadline (queueHead q)) as [| | n ev | n ev t | []] eqn:Hb;
      inversion Hcall; subst; simpl in Hready; try discriminate.
    exists n, ev, t. repeat split.
    now apply beyond_is_after_deadline in Hb.
Qed.

End QueueProperties.

(** ** The scenarios are states of a running program *)

Section ScenarioStates.

Import Scenario.

Variable in_turn : bool.

Lemma idle_reachable : reachable in_turn idle.
Proof. exact (reach_initial in_turn 100). Qed.

Lemma started_reachable : reachable in_turn started.
Proof.
  exact (reach_start in_turn idle (listening true running 0 Polling)
           idle_reachable eq_refl).
Qed.

Lemma first_retrieved_reachable : reachable in_turn first_retrieved.
Proof.
  pose proof (reach_arrival in_turn started (Incoming 60) started_reachable)
    as Harrived.
  refine (reach_listener in_turn _ retrieves [] 0 (Packing Polling [60])
            Harrived _ _).
  - apply task_retrieves with (h := [Incoming 60]);
      [reflexivity | reflexivity | discriminate].
  - reflexivity.
Qed.

Lemma one_queued_reachable : reachable in_turn one_queued.
Proof.
  refine (reach_listener in_turn first_retrieved stamps [] 1
            (Batch Polling [60] 100) first_retrieved_reachable _ _).
  - apply task_stamps with (count := 0).
  - discriminate.
Qed.

Lemma two_queued_reachable : reachable in_turn two_queued.
Proof.
  pose proof (reach_arrival in_turn one_queued (Incoming 64)
                one_queued_reachable) as Harrived.
  assert (Hsecond : reachable in_turn
            {| clock := 100; hSequencer := [];
               queue := listening true running 1
                          (Batch (Packing Polling [64]) [60] 100) |}).
  { refine (reach_listener in_turn _ retrieves [] 1
              (Batch (Packing Polling [64]) [60] 100) Harrived _ _).
    - apply task_behind_batch.
      apply task_retrieves with (h := [Incoming 64]);
        [reflexivity | reflexivity | discriminate].
    - reflexivity. }
  pose proof (reach_tick in_turn _ 5%N Hsecond) as Hlater.
  refine (reach_listener in_turn _ stamps [] 2
            (Batch (Batch Polling [64] 105) [60] 100) Hlater _ _).
  - apply task_behind_batch. apply task_stamps with (count := 1).
  - discriminate.
Qed.

Lemma failed_reachable : reachable in_turn failed.
Proof.
  pose proof (reach_arrival in_turn started (Failure (-19)) started_reachable)
    as Harrived.
  refine (reach_listener in_turn _ fails [] 0
            (Raised (runtime_error "ALSA problem")) Harrived _ _).
  - apply task_fails with (h := [Failure (-19)]); reflexivity.
  - discriminate.
Qed.

End ScenarioStates.

Lemma overtaken_reachable : reachable false Scenario.overtaken.
Proof.
  pose proof (reach_arrival false _ (Incoming 64)
                (first_retrieved_reachable false)) as Harrived.
  assert (Hsecond : reachable false
            {| clock := 100; hSequencer := [];
               queue := Scenario.listening true running 0
                          (Packing (Packing Polling [64]) [60]) |}).
  { refine (reach_listener false _ retrieves [] 0
              (Packing (Packing Polling [64]) [60]) Harrived _ _).
    - apply task_behind_packing.
      apply task_retrieves with (h := [Incoming 64]);
        [reflexivity | reflexivity | discriminate].
    - discriminate. }
  assert (Hstamped : reachable false
            {| clock := 100; hSequencer := [];
               queue := Scenario.listening true running 1
                          (Packing (Batch Polling [64] 100) [60]) |}).
  { refine (reach_listener false _ stamps [] 1
              (Packing (Batch Polling [64] 100) [60]) Hsecond _ _).
    - apply task_behind_packing. apply task_stamps with (count := 0).
    - discriminate. }
  pose proof (reach_tick false _ 5%N Hstamped) as Hlater.
  refine (reach_listener false _ stamps [] 2
            (Batch (Batch Polling [64] 100) [60] 105) Hlater _ _).
  - apply task_stamps with (count := 1).
  - discriminate.
Qed.

(** C10 before the first [start]. *)
Lemma process_on_stopped_queue_is_noop_witness :
  valid (queueHead (queue Scenario.idle)) = false /\
  process 1000 log_call (queue Scenario.idle) [] =
  Returned tt (queue Scenario.idle, []).
Proof.
  destruct (process_on_stopped_queue_is_noop false Scenario.idle
              (idle_reachable false)) as [Hhead Hnoop].
  split; [exact (Hhead eq_refl) |].
  exact (Hnoop (Hhead eq_refl) _ log_call 1000 []).
Defined.

(** C9 with two batches in the queue. *)
Lemma stop_empties_the_queue_witness :
  exists q',
    stop (queue Scenario.overtaken) = Returned tt q' /\
    getState q' = stopped /\
    carryOnFlag q' = false /\
    queueHead q' = Invalid /\
    getCurrentEventBatchCount q' = 0.
Proof.
  exact (stop_empties_the_queue false Scenario.overtaken overtaken_reachable).
Defined.

(** C1 on three batches stamped 1, 2 and 5 with the deadline 3: the events of
    the first two batches are delivered, the third batch is the new head. *)
Example process_three_batches :
  process 3 log_call Scenario.three_batches [] =
  Returned tt
    (Scenario.listening true running 1 (Batch Polling [67] 5),
     [(60, 1); (62, 2); (64, 2)]) /\
  hasResult (Scenario.listening true running 1 (Batch Polling [67] 5)) = true.
Proof. split; reflexivity. Qed.

Section ErrorsAndOrder.

Context {Event : Type}.

Local Abbreviation Future := (FutureAlsaEvents Event).
Local Abbreviation Queue := (QueueState Event).

(** C3. A fatal error of the listener is never handed to the caller of
    [process], and [process] never changes the state flag.  A call that
    reaches the failed future (every batch before it is due) does not return:
    the exception is not caught in [processInternal] and, [process] being
    [noexcept], the program is terminated.  A call that does not reach a
    failed future returns normally, and then the head is the future at which
    the loop stopped (no head if that future was interrupted), so a failed
    future further down the chain stays in the chain. *)
Theorem fatal_error_terminates_process :
  forall (U : Type) (closure : processCallback Event U) deadline (q : Queue) u,
  (forall what,
     beyond deadline (queueHead q) = Raised (runtime_error what) ->
     process deadline closure q u = Terminated) /\
  ((forall what,
      beyond deadline (queueHead q) <> Raised (runtime_error what)) ->
   exists q',
     process deadline closure q u =
       Returned tt
         (q', run_calls closure (deliveries (due deadline (queueHead q))) u)
     /\
     (queueHead q' = beyond deadline (queueHead q) \/
      queueHead q' = Invalid /\
      beyond deadline (queueHead q) = Raised InterruptedException)) /\
  (forall e s, process deadline closure q u <> Thrown e s) /\
  (forall q' u',
     process deadline closure q u = Returned tt (q', u') ->
     getState q' = getState q).
Proof.
  intros U closure deadline q u. rewrite process_unfolded.
  split; [| split; [| split]].
  - intros what Hb. now rewrite Hb.
  - intro Hreach.
    destruct (beyond deadline (queueHead q)) as [| | n ev | n ev t | [| what]]
      eqn:Hb;
      try (eexists; split; [reflexivity | simpl; auto]).
    exfalso. now apply (Hreach what).
  - intros e s.
    destruct (beyond deadline (queueHead q)) as [| | | | []]; discriminate.
  - intros q' u'.
    destruct (beyond deadline (queueHead q)) as [| | | | []]; intro H;
      inversion H; reflexivity.
Qed.

(** ** The order of the events of one batch *)

Lemma retrieveEvents_from_incoming : forall (events acc : EventList Event),
  retrieveEvents_from (map Incoming events) acc =
  Returned (rev events ++ acc) [].
Proof.
  induction events as [| event events IH]; intro acc.
  - reflexivity.
  - cbn [map retrieveEvents_from snd_seq_event_input].
    assert (Hlen : 0 <= Z.of_nat (List.length (map Incoming events))) by lia.
    destruct (Z.of_nat (List.length (map Incoming events)) =? - EAGAIN) eqn:He.
    { unfold EAGAIN in He. lia. }
    unfold checkAlsa.
    destruct (Z.of_nat (List.length (map Incoming events)) <? 0) eqn:Hneg;
      [lia |].
    destruct (Z.of_nat (List.length (map Incoming events)) >? 0) eqn:Hmore.
    + rewrite IH. simpl rev. now rewrite <- app_assoc.
    + rewrite Z.gtb_ltb in Hmore. apply Z.ltb_ge in Hmore.
      destruct events; [reflexivity | cbn [map List.length] in Hmore; lia].
Qed.

(** C2. [retrieveEvents] builds its list with
    [push_front], so the batch holds the events in the reverse of the order in
    which they were pulled from the sequencer, and [invokeClosureForeachEvent]
    passes them to the closure in that reverse order. *)
Theorem events_of_a_batch_are_delivered_in_reverse :
  forall (events : EventList Event) (current : TimePoint),
  retrieveEvents (map Incoming events) = Returned (rev events) [] /\
  invokeClosureForeachEvent (rev events) current log_call [] =
  map (fun event => (event, current)) (rev events).
Proof.
  intros events current. split.
  - unfold retrieveEvents. rewrite retrieveEvents_from_incoming.
    now rewrite app_nil_r.
  - rewrite invokeClosureForeachEvent_calls. apply run_calls_log.
Qed.

End ErrorsAndOrder.

(** Against C3 as the specification words it (the error reaches the caller and
    the queue becomes stopped): in the scenario [failed], [process] neither
    throws to its caller nor leaves the queue stopped. *)
Lemma fatal_error_is_not_surfaced :
  reachable false Scenario.failed /\
  queueHead (queue Scenario.failed) = Raised (runtime_error "ALSA problem") /\
  process 1000 log_call (queue Scenario.failed) [] = Terminated /\
  ~ (exists e q' log,
       process 1000 log_call (queue Scenario.failed) [] = Thrown e (q', log) /\
       getState q' = stopped).
Proof.
  split; [apply failed_reachable |].
  split; [reflexivity |].
  split; [reflexivity |].
  intros (e & q' & log & H & _). discriminate.
Qed.

(** C2 at two notes: 60 is pulled before 64 and delivered after it. *)
Example two_notes_are_swapped :
  retrieveEvents [Incoming 60; Incoming 64] = Returned [64; 60] [] /\
  invokeClosureForeachEvent [64; 60] 100 log_call [] = [(64, 100); (60, 100)].
Proof. split; reflexivity. Qed.

(** ** Time stamps along the chain *)

Section TimeStamps.

Context {Event : Type}.

Local Abbreviation Future := (FutureAlsaEvents Event).

Lemma nothing_received_stamped : forall clock lo (f : Future),
  nothing_received f -> stamped_in_turn clock lo f.
Proof.
  intros clock lo f [Hb Hp]. destruct f; simpl in *; try discriminate; auto.
Qed.

Lemma stamped_in_turn_later : forall clock clock' (f : Future) lo,
  clock <= clock' ->
  stamped_in_turn clock lo f -> stamped_in_turn clock' lo f.
Proof.
  intros clock clock' f.
  induction f as [| | next IH events | next IH events ts | e];
    intros lo Hle H; simpl in *; auto.
  destruct H as (H1 & H2 & H3). repeat split; auto; lia.
Qed.

Lemma stamped_in_turn_lower : forall clock (f : Future) lo lo',
  lo' <= lo -> stamped_in_turn clock lo f -> stamped_in_turn clock lo' f.
Proof.
  intros clock f lo lo' Hle H. destruct f; simpl in *; auto.
  destruct H as (H1 & H2 & H3). repeat split; auto; lia.
Qed.

Lemma listenForEvents_step_nothing_received :
  forall carryOn clock a h count (f : Future) h' count' f',
  listenForEvents_step carryOn clock a h count f h' count' f' ->
  a <> retrieves ->
  nothing_received f -> nothing_received f'.
Proof.
  intros carryOn clock a h count f h' count' f' Hstep Ha [Hb Hp].
  destruct Hstep; simpl in *; try discriminate; try congruence;
    split; reflexivity.
Qed.

Lemma listenForEvents_step_stamped_in_turn :
  forall carryOn clock a h count (f : Future) h' count' f',
  listenForEvents_step carryOn clock a h count f h' count' f' ->
  (a = retrieves -> nobody_packing f = true) ->
  forall lo, lo <= clock ->
  stamped_in_turn clock lo f -> stamped_in_turn clock lo f'.
Proof.
  intros carryOn clock a h count f h' count' f' Hstep.
  induction Hstep as
    [ h h' count Hc Hr
    | h h' count events Hc Hr Hne
    | h count next events
    | h h' count e Hc Hr
    | h count Hc
    | a h h' count count' next next' events ts Hstep IH
    | a h h' count count' next next' events Hstep IH ];
    intros Hturn lo Hlo Hst; simpl in *; auto.
  - split; reflexivity.
  - repeat split; try lia. now apply nothing_received_stamped.
  - destruct Hst as (H1 & H2 & H3). repeat split; auto.
  - destruct a;
      try (apply (listenForEvents_step_nothing_received _ _ _ _ _ _ _ _ _ Hstep);
           [discriminate | assumption]).
    specialize (Hturn eq_refl). discriminate.
Qed.

Lemma stamped_in_turn_beyond : forall clock deadline (f : Future) lo,
  lo <= clock ->
  stamped_in_turn clock lo f ->
  exists lo', lo' <= clock /\ stamped_in_turn clock lo' (beyond deadline f).
Proof.
  intros clock deadline f.
  induction f as [| | next IH events | next IH events ts | e];
    intros lo Hlo H; simpl beyond; try (exists lo; split; assumption).
  destruct (ts >? deadline).
  - exists lo. split; assumption.
  - destruct H as (_ & H2 & H3). eauto.
Qed.

Lemma stamped_in_turn_sorted : forall clock (f : Future) lo,
  stamped_in_turn clock lo f ->
  Forall (Z.le lo) (timeStamps f) /\ StronglySorted Z.le (timeStamps f).
Proof.
  intros clock f. unfold timeStamps.
  induction f as [| | next IH events | next IH events ts | e];
    intros lo H; simpl in *; try solve [split; constructor].
  - destruct H as [Hb _]. rewrite Hb. split; constructor.
  - destruct H as (H1 & H2 & H3). destruct (IH _ H3) as [Hall Hsorted].
    split; constructor; auto.
    eapply Forall_impl; [| exact Hall]. simpl. intros; lia.
Qed.

Lemma reachable_in_turn_stamped : forall (s : System Event),
  reachable true s ->
  exists lo, lo <= clock s /\
             stamped_in_turn (clock s) lo (queueHead (queue s)).
Proof.
  intros s Hreach.
  induction Hreach as
    [ t0
    | s n Hreach (lo & Hlo & IH)
    | s cell Hreach (lo & Hlo & IH)
    | s a h' count' head' Hreach (lo & Hlo & IH) Hstep Hturn
    | s q' Hreach (lo & Hlo & IH) Hcall
    | s q' Hreach (lo & Hlo & IH) Hcall
    | s U closure u u' deadline q' Hreach (lo & Hlo & IH) Hcall ]; simpl.
  - exists t0. split; [lia | exact I].
  - exists lo. split; [lia |].
    apply stamped_in_turn_later with (clock := clock s); [lia | assumption].
  - exists lo. auto.
  - exists lo. split; [assumption |].
    eapply listenForEvents_step_stamped_in_turn; eauto.
  - exists lo. split; [assumption |].
    unfold start, startInternal in Hcall.
    destruct (stateFlag (queue s)); simpl in Hcall; inversion Hcall; exact I.
  - exists lo. split; [assumption |].
    unfold stop in Hcall. simpl in Hcall. inversion Hcall. exact I.
  - apply process_returns_head in Hcall as (_ & _ & [Hh | [Hh _]]);
      rewrite Hh.
    + eapply stamped_in_turn_beyond; eauto.
    + exists lo. split; [assumption | exact I].
Qed.

Lemma strongly_sorted_between : forall (l1 l2 l3 : list Z) a b,
  StronglySorted Z.le (l1 ++ a :: l2 ++ b :: l3) -> a <= b.
Proof.
  induction l1 as [| x l1 IH]; intros l2 l3 a b H; simpl in H.
  - inversion H as [| ? ? _ Hall]; subst.
    rewrite Forall_forall in Hall. apply Hall.
    apply in_or_app. right. left. reflexivity.
  - inversion H; subst. eauto.
Qed.

Lemma deliveries_app : forall (bs bs' : list (EventList Event * TimePoint)),
  deliveries (bs ++ bs') = deliveries bs ++ deliveries bs'.
Proof.
  intros. unfold deliveries. apply flat_map_app.
Qed.

(** C8. [process] consumes a prefix of the batches of the chain and
    delivers it in chain order: when batch A precedes batch B among the
    consumed batches, every event of A is passed to the closure before every
    event of B.  In a session in which every listener task has read the clock
    before the next task drains the sequencer, the time stamps never decrease
    along the chain: if A precedes B then A's time stamp is not later than
    B's. *)
Theorem batches_are_delivered_in_chain_order :
  forall in_turn (s : System Event),
  reachable in_turn s ->
  let head := queueHead (queue s) in
  (in_turn = true ->
   forall older A between B newer,
     batches head = older ++ A :: between ++ B :: newer ->
     snd A <= snd B) /\
  (forall (U : Type) (closure : processCallback Event U) deadline u q' u',
     process deadline closure (queue s) u = Returned tt (q', u') ->
     batches head = due deadline head ++ batches (queueHead q') /\
     u' = run_calls closure (deliveries (due deadline head)) u /\
     forall older A between B newer,
       due deadline head = older ++ A :: between ++ B :: newer ->
       u' = run_calls closure
              (deliveries older ++ deliveries [A] ++ deliveries between ++
               deliveries [B] ++ deliveries newer) u).
Proof.
  intros in_turn s Hreach head. subst head. split.
  - intros Hturn older A between B newer Hchain. subst in_turn.
    destruct (reachable_in_turn_stamped s Hreach) as (lo & _ & Hst).
    apply stamped_in_turn_sorted in Hst as [_ Hsorted].
    unfold timeStamps in Hsorted. rewrite Hchain in Hsorted.
    rewrite map_app in Hsorted. simpl in Hsorted. rewrite map_app in Hsorted.
    simpl in Hsorted. now apply strongly_sorted_between in Hsorted.
  - intros U closure deadline u q' u' Hcall.
    apply process_returns_head in Hcall as (_ & Hu & Hhead).
    pose proof (chain_is_due_then_beyond deadline (queueHead (queue s))) as Hch.
    apply (f_equal batches) in Hch. rewrite batches_of_chain in Hch.
    split; [| split].
    + destruct Hhead as [Hh | [Hh Hb]]; rewrite Hh.
      * exact Hch.
      * rewrite Hb in Hch. exact Hch.
    + exact Hu.
    + intros older A between B newer Hdue. rewrite Hu, Hdue.
      f_equal.
      change (A :: between ++ B :: newer) with ([A] ++ between ++ [B] ++ newer).
      now rewrite !deliveries_app.
Qed.

End TimeStamps.

(** C8 in the scenario [two_queued], where the tasks have read the clock in
    turn. *)
Lemma batches_are_delivered_in_chain_order_witness :
  batches (queueHead (queue Scenario.two_queued)) =
    [([60], 100); ([64], 105)] /\
  (forall older A between B newer,
     batches (queueHead (queue Scenario.two_queued)) =
     older ++ A :: between ++ B :: newer ->
     snd A <= snd B) /\
  (forall q' log,
     process 102 log_call (queue Scenario.two_queued) [] =
       Returned tt (q', log) ->
     batches (queueHead (queue Scenario.two_queued)) =
       due 102 (queueHead (queue Scenario.two_queued)) ++
       batches (queueHead q') /\
     log = deliveries (due 102 (queueHead (queue Scenario.two_queued)))).
Proof.
  pose proof (batches_are_delivered_in_chain_order true Scenario.two_queued
                (two_queued_reachable true)) as [Hstamps Horder].
  split; [reflexivity |].
  split; [exact (Hstamps eq_refl) |].
  intros q' log Hcall.
  destruct (Horder _ log_call 102 [] q' log Hcall) as (Hprefix & Hlog & _).
  split; [exact Hprefix |].
  rewrite Hlog. apply run_calls_log.
Defined.

(** Against C8 as the specification words it (time stamps never decrease along
    the chain in any session): in the scenario [overtaken] the first batch of
    the chain carries a later time stamp than the second. *)
Lemma later_batch_stamped_earlier :
  reachable false Scenario.overtaken /\
  batches (queueHead (queue Scenario.overtaken)) =
    [([60], 105); ([64], 100)] /\
  ~ (105 <= 100).
Proof.
  split; [exact overtaken_reachable |].
  split; [reflexivity | lia].
Qed.

(** * Properties of the cycle scheduler *)

Import jackClient.

Ltac jack_unfold :=
  unfold resyncs, secondReading, firstReading, result, world_after,
    timing_after, newDeadline, isPlausible, resetTiming, invalidateTiming,
    bind, ret, read, now, jack_get_cycle_times, jack_frames_since_cycle_start,
    jack_sample_rate, set_cycleLength, set_previousDeadline,
    set_resetTimingCount in *;
  simpl in *.

Ltac split_ifs :=
  repeat match goal with
         | |- context [if ?b then _ else _] => destruct b eqn:?; simpl in *
         end.

Ltac reflect_comparisons :=
  repeat match goal with
         | H : (_ <? _) = true |- _ => apply Z.ltb_lt in H
         | H : (_ <? _) = false |- _ => apply Z.ltb_ge in H
         | H : (_ >=? _) = true |- _ => rewrite Z.geb_leb in H; apply Z.leb_le in H
         | H : (_ >=? _) = false |- _ => rewrite Z.geb_leb in H; apply Z.leb_gt in H
         | H : (_ =? _) = true |- _ => apply Z.eqb_eq in H
         | H : (_ =? _) = false |- _ => apply Z.eqb_neq in H
         end.

Ltac by_arithmetic :=
  reflect_comparisons;
  solve [ discriminate | reflexivity | lia | exfalso; lia
        | split; reflexivity | split; lia ].

Lemma frames2duration_nonneg : forall rate frames,
  0 <= frames2duration rate frames.
Proof.
  intros rate frames. unfold frames2duration, microsecond.
  apply Z.div_pos; lia.
Qed.

Lemma jitter_positive : 0 < JITTER_COMPENSATION.
Proof. reflexivity. Qed.

Lemma readings_in_order : forall w,
  lastReading w <= firstReading w <= secondReading w.
Proof.
  intros [last ds err period frames rate]. jack_unfold.
  destruct ds as [| d1 [| d2 ds]]; simpl; lia.
Qed.

(** C7. [isPlausible(d)] reads the clock twice.  It is true exactly when [d]
    is earlier than the first reading (line 180) and not earlier than the
    second reading (line 186) less [cycleLength] less [JITTER_COMPENSATION];
    it changes no timing variable.  When the clock does not move between the
    two readings, both are the same [now()] and the window is
    [now() - cycleLength - JITTER_COMPENSATION <= d < now()]. *)
Theorem isPlausible_iff_in_window :
  forall (deadline : TimePoint) (w : World) (t : Timing),
  (result (isPlausible deadline w t) = true <->
   secondReading w - g_cycleLength t - JITTER_COMPENSATION <= deadline /\
   deadline < firstReading w) /\
  timing_after (isPlausible deadline w t) = t /\
  (delays w = [] ->
   firstReading w = lastReading w /\ secondReading w = lastReading w).
Proof.
  intros deadline [last ds err period frames rate] t. split; [| split].
  - jack_unfold.
    destruct ds as [| d1 [| d2 ds]]; simpl; split_ifs;
      split; intros; try discriminate; try reflexivity; lia.
  - jack_unfold.
    destruct ds as [| d1 [| d2 ds]]; simpl; split_ifs; reflexivity.
  - simpl. intro H. subst ds. split; reflexivity.
Qed.

(** Against C7 as the specification words it (one [now()] bounds the window
    on both sides): when the clock moves by 10 units between the two readings
    of [isPlausible], no single value of [now()] describes the deadlines that
    are accepted. *)
Lemma isPlausible_window_has_two_readings :
  firstReading Scenario.tickingWorld = 1000000000 /\
  secondReading Scenario.tickingWorld = 1000000010 /\
  ~ (exists current : TimePoint,
       forall deadline : TimePoint,
       result (isPlausible deadline Scenario.tickingWorld
                 Scenario.staleTiming) = true <->
       current - g_cycleLength Scenario.staleTiming - JITTER_COMPENSATION
         <= deadline /\
       deadline < current).
Proof.
  split; [reflexivity |]. split; [reflexivity |].
  intros (current & Hclaim).
  assert (Hupper : current <= 1000000000).
  { destruct (Z.le_gt_cases current 1000000000) as [H | H]; [exact H |].
    destruct (Hclaim 1000000000) as [_ Hback].
    assert (Hin : current - g_cycleLength Scenario.staleTiming
                  - JITTER_COMPENSATION <= 1000000000 /\ 1000000000 < current).
    { destruct (Hclaim 999999999) as [Hforth _].
      specialize (Hforth eq_refl). lia. }
    specialize (Hback Hin). discriminate. }
  assert (Hlower : 1000000000 <= current).
  { destruct (Hclaim 999999999) as [Hforth _].
    specialize (Hforth eq_refl). lia. }
  assert (Hcurrent : current = 1000000000) by lia. subst current.
  destruct (Hclaim 998500005) as [_ Hback].
  assert (Hin : 1000000000 - g_cycleLength Scenario.staleTiming
                - JITTER_COMPENSATION <= 998500005 /\ 998500005 < 1000000000).
  { unfold Scenario.staleTiming, JITTER_COMPENSATION, microsecond. simpl.
    lia. }
  specialize (Hback Hin). discriminate.
Qed.

(** C6. In every state and on every path (fast, resync, failed resync) the
    value that [newDeadline] returns is not later than the last clock reading
    made during the call, hence not later than any reading made afterwards. *)
Theorem newDeadline_never_after_now :
  forall (w : World) (t t' : Timing),
  result (newDeadline w t) <= lastReading (world_after (newDeadline w t)) /\
  result (newDeadline w t) <=
    result (now (world_after (newDeadline w t)) t').
Proof.
  intros [last ds err period frames rate] t t'.
  pose proof (frames2duration_nonneg rate frames) as Hframes.
  pose proof jitter_positive as Hjitter.
  jack_unfold.
  destruct ds as [| d1 [| d2 [| d3 [| d4 ds]]]]; simpl; split_ifs;
    simpl; lia.
Qed.

Lemma invalidateTiming_resets : forall (w : World) (t : Timing),
  timing_after (invalidateTiming w t) = timingAtActivation /\
  invalidated (timing_after (invalidateTiming w t)).
Proof.
  intros w t. split; [reflexivity | split; reflexivity].
Qed.

(** ** A resync that fails *)

Lemma invalidated_timing_resyncs : forall (w : World) (t : Timing),
  invalidated t ->
  JITTER_COMPENSATION < firstReading w ->
  resyncs w t = true.
Proof.
  intros [last ds err period frames rate] [cycle previous count] [Hc Hp].
  simpl in Hc, Hp. subst cycle previous.
  pose proof jitter_positive as Hjitter.
  jack_unfold.
  destruct ds as [| d1 [| d2 ds]]; simpl; intro Hlate; split_ifs;
    by_arithmetic.
Qed.

(** What the early return of [resetTiming] does.  When a call of
    [newDeadline] takes the resync path and [jack_get_cycle_times] reports an
    error, the call returns the value of [now()] read after the plausibility
    check and counts the resync, but the cycle length and the previous
    deadline stay as they were: the previous deadline is not set to the
    returned value, which the comments of [resetTiming] and [newDeadline]
    promise.  Only if the two were invalidated before the call are they
    still, and does the next call resync as well (its clock reading later
    than [JITTER_COMPENSATION]). *)
Theorem failed_resync_returns_now :
  forall (w : World) (t : Timing),
  resyncs w t = true ->
  cycleTimesError w <> 0 ->
  let tentative := g_previousDeadline t + g_cycleLength t in
  let r := newDeadline w t in
  result r = result (now (world_after (isPlausible tentative w t)) t) /\
  result r = lastReading (world_after r) /\
  g_cycleLength (timing_after r) = g_cycleLength t /\
  g_previousDeadline (timing_after r) = g_previousDeadline t /\
  g_resetTimingCount (timing_after r) = wrap_int (g_resetTimingCount t + 1) /\
  (invalidated t ->
   invalidated (timing_after r) /\
   forall w', JITTER_COMPENSATION < firstReading w' ->
              resyncs w' (timing_after r) = true).
Proof.
  intros w t Hslow Herr tentative r.
  assert (Hkept : g_cycleLength (timing_after r) = g_cycleLength t /\
                  g_previousDeadline (timing_after r) = g_previousDeadline t).
  { subst r tentative. destruct w as [last ds err period frames rate].
    destruct t as [cycle previous count]. jack_unfold.
    destruct ds as [| d1 [| d2 [| d3 ds]]]; simpl in *; split_ifs;
      by_arithmetic. }
  destruct Hkept as [Hcycle Hprevious].
  repeat split; try assumption.
  - subst r tentative. destruct w as [last ds err period frames rate].
    destruct t as [cycle previous count]. jack_unfold.
    destruct ds as [| d1 [| d2 [| d3 ds]]]; simpl in *; split_ifs;
      by_arithmetic.
  - subst r tentative. destruct w as [last ds err period frames rate].
    destruct t as [cycle previous count]. jack_unfold.
    destruct ds as [| d1 [| d2 [| d3 ds]]]; simpl in *; split_ifs;
      by_arithmetic.
  - subst r tentative. destruct w as [last ds err period frames rate].
    destruct t as [cycle previous count]. jack_unfold.
    destruct ds as [| d1 [| d2 [| d3 ds]]]; simpl in *; split_ifs;
      by_arithmetic.
  - destruct H as [Hc Hp]. unfold invalidated. rewrite Hcycle. exact Hc.
  - destruct H as [Hc Hp]. unfold invalidated. rewrite Hprevious. exact Hp.
  - intros w' Hlate. apply invalidated_timing_resyncs; [| exact Hlate].
    destruct H as [Hc Hp]. split; congruence.
Qed.

(** Right after activation the failed resync returns the clock reading and
    the timing stays invalidated. *)
Lemma failed_resync_returns_now_witness :
  result (newDeadline Scenario.firstCallbackFails timingAtActivation) =
    1000000000 /\
  g_resetTimingCount
    (timing_after (newDeadline Scenario.firstCallbackFails timingAtActivation))
    = 1 /\
  invalidated
    (timing_after (newDeadline Scenario.firstCallbackFails timingAtActivation)).
Proof.
  pose proof (failed_resync_returns_now Scenario.firstCallbackFails
                timingAtActivation eq_refl) as H.
  assert (Herr : cycleTimesError Scenario.firstCallbackFails <> 0)
    by (simpl; lia).
  destruct (H Herr) as (_ & Hnow & _ & _ & Hcount & Hinv).
  split; [exact Hnow |].
  split; [exact Hcount |].
  exact (proj1 (Hinv (conj eq_refl eq_refl))).
Defined.

(** C4. The code at a resync that fails after a callback came early
    (previous deadline 10 ms, cycle length 1 ms, clock at 10.9 ms,
    [jack_get_cycle_times] returning -1): [newDeadline] returns the clock
    reading 10.9 ms and counts the resync, but leaves the cycle length and the
    previous deadline as they were, neither invalidated nor set to the
    returned value; the next call, one cycle later, finds 11 ms plausible and
    takes the fast path instead of resyncing. *)
Lemma failed_resync_then_fast_path :
  resyncs Scenario.earlyCallback Scenario.staleTiming = true /\
  cycleTimesError Scenario.earlyCallback <> 0 /\
  result (newDeadline Scenario.earlyCallback Scenario.staleTiming) = 10900000 /\
  timing_after (newDeadline Scenario.earlyCallback Scenario.staleTiming) =
    {| g_cycleLength := 1000000; g_previousDeadline := 10000000;
       g_resetTimingCount := 2 |} /\
  g_previousDeadline
    (timing_after (newDeadline Scenario.earlyCallback Scenario.staleTiming))
    <> result (newDeadline Scenario.earlyCallback Scenario.staleTiming) /\
  ~ invalidated
      (timing_after (newDeadline Scenario.earlyCallback Scenario.staleTiming)) /\
  resyncs Scenario.nextCallback
    (timing_after (newDeadline Scenario.earlyCallback Scenario.staleTiming))
    = false.
Proof.
  split; [reflexivity |].
  split; [simpl; lia |].
  split; [reflexivity |].
  split; [reflexivity |].
  split; [discriminate |].
  split; [| reflexivity].
  intros [Hc _]. discriminate Hc.
Qed.

(** ** Regular cycles *)

Section RegularCycles.

Variables (t0 : TimePoint) (period : SysTimeUnits).
Variables (frames : nat -> N) (rate : positive).

Hypothesis frames_within_period :
  forall k, frames2duration rate (frames k) <= period.

Local Abbreviation instant k := (t0 + Z.of_nat k * period).
Local Abbreviation worldOf k := (regularWorld t0 period frames rate k).
Local Abbreviation timingOf k := (timingBefore t0 period frames rate k).

Lemma timingBefore_succ : forall k,
  timingOf (S k) = timing_after (newDeadline (worldOf k) (timingOf k)).
Proof.
  intro k. unfold timingBefore, regularWorlds, cycles.
  rewrite seq_S, map_app, fold_left_app. reflexivity.
Qed.

Lemma fresh_timing_step : forall k,
  let after := timing_after (newDeadline (worldOf k) timingAtActivation) in
  resyncs (worldOf k) timingAtActivation = false /\ after = timingAtActivation
  \/
  resyncs (worldOf k) timingAtActivation = true /\
  settled period (instant (S k)) after.
Proof.
  intro k.
  pose proof (frames2duration_nonneg rate (frames k)) as Hnonneg.
  pose proof (frames_within_period k) as Hwithin.
  pose proof jitter_positive as Hjitter.
  unfold settled, regularWorld, steadyWorld, timingAtActivation.
  assert (Hnext : instant (S k) = instant k + period) by lia.
  rewrite Hnext. clear Hnext. generalize (instant k). intro t.
  jack_unfold. split_ifs; [right | right | left].
  - repeat split; lia.
  - repeat split; lia.
  - split; reflexivity.
Qed.

Lemma settled_timing_step : forall k timing,
  settled period (instant k) timing ->
  resyncs (worldOf k) timing = false /\
  settled period (instant (S k))
    (timing_after (newDeadline (worldOf k) timing)).
Proof.
  intros k [cycle previous count] (Hc & Hn & Hlo & Hhi).
  cbn [g_cycleLength g_previousDeadline g_resetTimingCount] in *.
  subst cycle count.
  pose proof jitter_positive as Hjitter.
  unfold settled, regularWorld, steadyWorld.
  assert (Hnext : instant (S k) = instant k + period) by lia.
  rewrite Hnext. clear Hnext. revert Hlo Hhi. generalize (instant k).
  intros t Hlo Hhi.
  jack_unfold. split_ifs; reflect_comparisons; try (exfalso; lia).
  repeat split; lia.
Qed.

Lemma regular_cycles_invariant : forall n,
  (timingOf n = timingAtActivation /\
   forall j, (j < n)%nat -> resyncs (worldOf j) (timingOf j) = false)
  \/ settled period (instant n) (timingOf n).
Proof.
  induction n as [| n [[Hfresh Hfast] | Hsettled]].
  - left. split; [reflexivity |]. intros j Hj. lia.
  - rewrite timingBefore_succ, Hfresh.
    destruct (fresh_timing_step n) as [[Hr Hafter] | [Hr Hafter]].
    + left. split; [exact Hafter |].
      intros j Hj. destruct (Nat.eq_dec j n) as [-> | Hne].
      * now rewrite Hfresh.
      * apply Hfast. lia.
    + right. exact Hafter.
  - right. rewrite timingBefore_succ.
    now apply settled_timing_step.
Qed.

(** C5. The session begins with [invalidateTiming]; the callbacks
    run at regular intervals of one cycle length and the server answers every
    query.  If, in addition, the frames since the cycle start that the server
    reports never last longer than one cycle, the reset counter never exceeds
    1: once a call has resynced, every later call takes the fast path.  The
    resync is the first call whenever the clock then reads later than
    [JITTER_COMPENSATION]. *)
Theorem regular_cycles_resync_once :
  forall n,
  0 <= g_resetTimingCount (timingOf n) <= 1 /\
  (forall j, (j < n)%nat ->
     resyncs (worldOf j) (timingOf j) = true ->
     resyncs (worldOf n) (timingOf n) = false /\
     g_resetTimingCount (timingOf n) = 1) /\
  (JITTER_COMPENSATION < t0 ->
   resyncs (worldOf 0) (timingOf 0) = true).
Proof.
  intro n. split; [| split].
  - destruct (regular_cycles_invariant n) as [[Hfresh _] | (_ & Hcount & _)].
    + rewrite Hfresh. simpl. lia.
    + lia.
  - intros j Hj Hresync.
    destruct (regular_cycles_invariant n) as [[_ Hfast] | Hsettled].
    + rewrite (Hfast j Hj) in Hresync. discriminate.
    + split; [now apply settled_timing_step |].
      now destruct Hsettled as (_ & Hcount & _).
  - intro Hlate. apply invalidated_timing_resyncs.
    + split; reflexivity.
    + unfold regularWorld, steadyWorld. jack_unfold. lia.
Qed.

End RegularCycles.

(** C5 with cycles of 1 ms, callbacks that run half a cycle after the cycle
    start, and a first callback one second after the epoch: the first call
    resyncs, the fifth takes the fast path, the counter stays at 1. *)
Lemma regular_cycles_resync_once_witness :
  (forall k, frames2duration 48000 (Scenario.halfwayFrames k) <= 1000000) /\
  0 <= g_resetTimingCount
         (timingBefore 1000000000 1000000 Scenario.halfwayFrames 48000 4) <= 1 /\
  resyncs (regularWorld 1000000000 1000000 Scenario.halfwayFrames 48000 0)
          (timingBefore 1000000000 1000000 Scenario.halfwayFrames 48000 0)
    = true /\
  resyncs (regularWorld 1000000000 1000000 Scenario.halfwayFrames 48000 4)
          (timingBefore 1000000000 1000000 Scenario.halfwayFrames 48000 4)
    = false.
Proof.
  assert (Hframes : forall k,
            frames2duration 48000 (Scenario.halfwayFrames k) <= 1000000)
    by (intro k; vm_compute; discriminate).
  destruct (regular_cycles_resync_once 1000000000 1000000
              Scenario.halfwayFrames 48000 Hframes 4)
    as (Hcount & Hlater & Hfirst).
  split; [exact Hframes |].
  split; [exact Hcount |].
  assert (Hresync : resyncs
            (regularWorld 1000000000 1000000 Scenario.halfwayFrames 48000 0)
            (timingBefore 1000000000 1000000 Scenario.halfwayFrames 48000 0)
            = true)
    by (apply Hfirst; reflexivity).
  split; [exact Hresync |].
  apply (Hlater 0%nat); [repeat constructor | exact Hresync].
Defined.

(** Against C5 as the specification words it (regular callbacks alone keep the
    counter at 1): when the server reports more frames since the cycle start
    than one cycle holds, here cycles of 1 ms and callbacks that run 2 ms after
    the cycle start at perfectly regular intervals, every call resyncs. *)
Lemma regular_cycles_resync_every_time :
  g_resetTimingCount
    (timingBefore 1000000000 1000000 Scenario.overdueFrames 48000 3) = 3 /\
  resyncs (regularWorld 1000000000 1000000 Scenario.overdueFrames 48000 0)
          (timingBefore 1000000000 1000000 Scenario.overdueFrames 48000 0)
    = true /\
  resyncs (regularWorld 1000000000 1000000 Scenario.overdueFrames 48000 1)
          (timingBefore 1000000000 1000000 Scenario.overdueFrames 48000 1)
    = true /\
  resyncs (regularWorld 1000000000 1000000 Scenario.overdueFrames 48000 2)
          (timingBefore 1000000000 1000000 Scenario.overdueFrames 48000 2)
    = true.
Proof. repeat split; vm_compute; reflexivity. Qed.

(** * Further properties of the receiver queue *)

Section QueueUse.

Context {Event : Type}.

Local Abbreviation Future := (FutureAlsaEvents Event).
Local Abbreviation Queue := (QueueState Event).

(** ** Draining twice *)

Lemma due_beyond_max : forall d1 d2 (f : Future),
  due (Z.max d1 d2) f = due d1 f ++ due d2 (beyond d1 f) /\
  beyond (Z.max d1 d2) f = beyond d2 (beyond d1 f).
Proof.
  intros d1 d2 f.
  destruct (Z.max_spec d1 d2) as [[Hlt ->] | [Hle ->]];
    induction f as [| | next IH events | next IH events ts | e];
    simpl; auto.
  - destruct (Z.gtb_spec ts d1) as [H1 | H1]; simpl.
    + destruct (Z.gtb_spec ts d2); auto.
    + destruct (Z.gtb_spec ts d2) as [H2 | H2]; [lia |].
      destruct IH as [IHd IHb].
      split; [simpl; f_equal; exact IHd | exact IHb].
  - destruct (Z.gtb_spec ts d1) as [H1 | H1]; simpl.
    + destruct (Z.gtb_spec ts d2) as [H2 | H2]; [| lia].
      split; reflexivity.
    + destruct IH as [IHd IHb].
      split; [simpl; f_equal; exact IHd | exact IHb].
Qed.

(** X1. Two calls of [process] in a row, with nothing received in between,
    do what one call with the later of the two deadlines does: the same
    closure calls in the same order, the same queue afterwards, and the same
    end of the program if the second call runs into a fatal error.  In
    particular a second call with the same or an earlier deadline delivers
    nothing, so no event is delivered twice. *)
Theorem process_twice_is_process_once :
  forall (U : Type) (closure : processCallback Event U) d1 d2
         (q q1 : Queue) u u1,
  process d1 closure q u = Returned tt (q1, u1) ->
  process d2 closure q1 u1 = process (Z.max d1 d2) closure q u.
Proof.
  intros U closure d1 d2 q q1 u u1 H.
  rewrite process_unfolded in H. rewrite !process_unfolded.
  unfold drained in *.
  destruct (due_beyond_max d1 d2 (queueHead q)) as [Hdue Hbeyond].
  rewrite Hdue, Hbeyond. clear Hdue Hbeyond.
  rewrite deliveries_app, run_calls_app, length_app, Nat2Z.inj_add.
  destruct (beyond d1 (queueHead q)) as [| | n ev | n ev t | []] eqn:Hb;
    inversion H; subst; clear H; simpl;
    try (match goal with
         | |- context [if ?b then _ else _] => destruct b
         end);
    try (match goal with
         | |- context [beyond d2 ?r] =>
             destruct (beyond d2 r) as [| | | | []]
         end);
    simpl; try reflexivity;
    (f_equal; apply f_equal2; [f_equal; lia | reflexivity]).
Qed.

(** ** Errors of the sequencer *)

Lemma retrieveEvents_from_up_to_failure :
  forall (events acc : EventList Event) code rest,
  retrieveEvents_from (map Incoming events ++ Failure code :: rest) acc =
  retrieveEvents_from (Failure code :: rest) (rev events ++ acc).
Proof.
  induction events as [| event events IH]; intros acc code rest.
  - reflexivity.
  - cbn [map app retrieveEvents_from snd_seq_event_input].
    set (remaining :=
           Z.of_nat (List.length (map Incoming events ++ Failure code :: rest))).
    assert (Hpos : 0 < remaining).
    { unfold remaining. rewrite length_app. simpl. lia. }
    destruct (remaining =? - EAGAIN) eqn:He.
    { unfold EAGAIN in He. lia. }
    unfold checkAlsa.
    destruct (remaining <? 0) eqn:Hneg; [lia |].
    destruct (remaining >? 0) eqn:Hmore.
    + rewrite IH. simpl rev. now rewrite <- app_assoc.
    + rewrite Z.gtb_ltb in Hmore. apply Z.ltb_ge in Hmore. lia.
Qed.

(** X2. When [snd_seq_event_input] answers [-EAGAIN], [retrieveEvents]
    returns the events it has pulled so far (newest first).  When it answers
    any other negative code, [retrieveEvents] throws the [runtime_error] of
    [checkAlsa], and the events it has already pulled in this call are gone:
    they have left the sequencer and are not returned. *)
Theorem retrieveEvents_on_error :
  forall (events : EventList Event) code rest,
  (code = - EAGAIN ->
   retrieveEvents (map Incoming events ++ Failure code :: rest) =
   Returned (rev events) rest) /\
  (code < 0 -> code <> - EAGAIN ->
   retrieveEvents (map Incoming events ++ Failure code :: rest) =
   Thrown (runtime_error "ALSA problem") rest).
Proof.
  intros events code rest. unfold retrieveEvents.
  rewrite retrieveEvents_from_up_to_failure, app_nil_r.
  cbn [retrieveEvents_from snd_seq_event_input]. split.
  - intros ->. reflexivity.
  - intros Hneg Hne.
    destruct (code =? - EAGAIN) eqn:He; [lia |].
    unfold checkAlsa. destruct (code <? 0) eqn:Hc; [reflexivity | lia].
Qed.

(** ** Starting *)

(** X3. [start] on a stopped queue returns, with the queue running, one
    listener polling and nothing queued.  [start] on a running queue throws a
    [runtime_error] and leaves the queue as it was before the first [start]:
    stopped, without head, every queued batch destroyed.  Hence a [start] that
    follows a successful [start] always throws and stops the queue. *)
Theorem start_twice_stops_the_queue :
  forall in_turn (s : System Event),
  reachable in_turn s ->
  (getState (queue s) = stopped ->
   start (queue s) =
   Returned tt {| carryOnFlag := true; stateFlag := running;
                  currentEventBatchCount := 0;
                  queueHead := startNextFuture |}) /\
  (getState (queue s) = running ->
   exists what,
     start (queue s) = Thrown (runtime_error what) initialQueueState) /\
  (forall q1,
     start (queue s) = Returned tt q1 ->
     exists what, start q1 = Thrown (runtime_error what) initialQueueState).
Proof.
  intros in_turn s Hreach.
  destruct (reachable_consistent _ _ Hreach) as [Hempty Hcount].
  unfold stopped_is_empty, counter_exact, getState in *.
  assert (Hrunning : stateFlag (queue s) = running ->
            exists what,
              start (queue s) = Thrown (runtime_error what) initialQueueState).
  { intro Hs. unfold start, startInternal, stopInternal. rewrite Hs.
    eexists. f_equal. unfold initialQueueState. f_equal.
    rewrite release_count. lia. }
  split; [| split; [exact Hrunning |]].
  - intro Hs. unfold start, startInternal. rewrite Hs. simpl.
    rewrite (Hempty Hs) in *. simpl in *. rewrite Hcount. reflexivity.
  - intros q1 H1. unfold start, startInternal in H1.
    destruct (stateFlag (queue s)) eqn:Hs; [| discriminate].
    simpl in H1. inversion H1; subst; clear H1.
    unfold start, startInternal, stopInternal. simpl.
    eexists. f_equal. unfold initialQueueState. f_equal.
    rewrite (Hempty eq_refl) in *. simpl in *. lia.
Qed.

(** ** The batch counter *)

(** X4. Between any two operations [getCurrentEventBatchCount] is the
    number of batches that exist in the chain, so it is never negative; on a
    stopped queue it is 0 and [hasResult] is false. *)
Theorem counter_counts_the_batches :
  forall in_turn (s : System Event),
  reachable in_turn s ->
  getCurrentEventBatchCount (queue s) =
    Z.of_nat (List.length (batches (queueHead (queue s)))) /\
  0 <= getCurrentEventBatchCount (queue s) /\
  (getState (queue s) = stopped ->
   getCurrentEventBatchCount (queue s) = 0 /\ hasResult (queue s) = false).
Proof.
  intros in_turn s Hreach.
  destruct (reachable_consistent _ _ Hreach) as [Hempty Hcount].
  unfold stopped_is_empty, counter_exact, getState,
    getCurrentEventBatchCount, hasResult in *.
  split; [exact Hcount |]. split; [lia |].
  intro Hs. rewrite Hcount, (Hempty Hs). split; reflexivity.
Qed.

End QueueUse.

(** ** What the chain of a running program looks like *)

Section ChainShape.

Context {Event : Type}.

Local Abbreviation Future := (FutureAlsaEvents Event).

Lemma retrieveEvents_from_throws :
  forall (h h' : snd_seq_t Event) (acc : EventList Event) e,
  retrieveEvents_from h acc = Thrown e h' ->
  e = runtime_error "ALSA problem".
Proof.
  induction h as [| cell h IH]; intros h' acc e H; simpl in H.
  - discriminate.
  - destruct (snd_seq_event_input cell h) as [status eventPtr].
    unfold checkAlsa in H.
    repeat match type of H with
           | context [if ?b then _ else _] => destruct b; simpl in H
           end;
      try discriminate; eauto.
    now inversion H.
Qed.

Lemma listenForEvents_step_live :
  forall carryOn clock a h count (f : Future) h' count' f',
  listenForEvents_step carryOn clock a h count f h' count' f' ->
  carryOn = true ->
  live f = true -> live f' = true.
Proof.
  intros carryOn clock a h count f h' count' f' Hstep Hcarry.
  induction Hstep; simpl; intro Hlive; auto; try congruence.
  unfold retrieveEvents in *.
  match goal with
  | H : retrieveEvents_from _ _ = Thrown _ _ |- _ =>
      apply retrieveEvents_from_throws in H; subst
  end.
  reflexivity.
Qed.

Lemma live_beyond : forall deadline (f : Future),
  live f = true ->
  live (beyond deadline f) = true /\
  beyond deadline f <> Raised InterruptedException.
Proof.
  intros deadline f.
  induction f as [| | next IH events | next IH events ts | e];
    simpl; intro H; try discriminate.
  - split; [reflexivity | discriminate].
  - split; [assumption | discriminate].
  - destruct (ts >? deadline); [| auto].
    split; [assumption | discriminate].
  - split; [assumption |]. intro He. inversion He; subst. discriminate.
Qed.

Lemma reachable_flags : forall in_turn (s : System Event),
  reachable in_turn s ->
  stateFlag (queue s) = stopped /\ carryOnFlag (queue s) = false /\
    queueHead (queue s) = Invalid
  \/
  stateFlag (queue s) = running /\ carryOnFlag (queue s) = true /\
    live (queueHead (queue s)) = true.
Proof.
  intros in_turn s Hreach.
  induction Hreach as
    [ t0
    | s n Hreach IH
    | s cell Hreach IH
    | s a h' count' head' Hreach IH Hstep Hturn
    | s q' Hreach IH Hcall
    | s q' Hreach IH Hcall
    | s U closure u u' deadline q' Hreach IH Hcall ]; simpl; auto.
  - destruct IH as [(Hs & Hc & Hh) | (Hs & Hc & Hl)].
    + apply listenForEvents_step_valid in Hstep as [Hv _].
      rewrite Hh in Hv. discriminate.
    + right. repeat split; auto.
      eapply listenForEvents_step_live; eauto.
  - unfold start, startInternal in Hcall.
    destruct (stateFlag (queue s)); simpl in Hcall; inversion Hcall; simpl;
      auto.
  - unfold stop in Hcall. simpl in Hcall. inversion Hcall. simpl. auto.
  - destruct IH as [(Hs & Hc & Hh) | (Hs & Hc & Hl)].
    + rewrite process_without_head in Hcall by (rewrite Hh; reflexivity).
      inversion Hcall; subst. auto.
    + apply process_returns_head in Hcall as (Hq' & _ & Hhead).
      destruct (live_beyond deadline _ Hl) as [Hlive Hne].
      destruct Hhead as [Hh | [_ Hb]]; [| contradiction].
      right. rewrite Hq'. simpl. rewrite Hh. auto.
Qed.

Lemma live_valid : forall (f : Future), live f = true -> valid f = true.
Proof. intros f. destruct f; simpl; auto. Qed.

(** X5. Between any two operations the three signs of a running queue
    agree: the state flag is [running] exactly when [carryOnFlag] is set and
    exactly when the head future is valid.  While the queue runs, no future of
    the chain lacks its shared state and none holds an
    [InterruptedException]: [stop] drops the chain under the same lock that
    clears [carryOnFlag].  So a call of [process] that returns never takes
    the head away. *)
Theorem running_queue_keeps_its_head :
  forall in_turn (s : System Event),
  reachable in_turn s ->
  (carryOnFlag (queue s) = true <-> getState (queue s) = running) /\
  (valid (queueHead (queue s)) = true <-> getState (queue s) = running) /\
  (getState (queue s) = running -> live (queueHead (queue s)) = true) /\
  (forall (U : Type) (closure : processCallback Event U) deadline u q' u',
     process deadline closure (queue s) u = Returned tt (q', u') ->
     getState q' = getState (queue s) /\
     valid (queueHead q') = valid (queueHead (queue s))).
Proof.
  intros in_turn s Hreach. unfold getState.
  assert (Hsigns : forall s' : System Event, reachable in_turn s' ->
            (carryOnFlag (queue s') = true <-> stateFlag (queue s') = running)
            /\ (valid (queueHead (queue s')) = true <->
                stateFlag (queue s') = running)
            /\ (stateFlag (queue s') = running ->
                live (queueHead (queue s')) = true)).
  { intros s' Hr.
    destruct (reachable_flags _ _ Hr) as [(Hs & Hc & Hh) | (Hs & Hc & Hl)];
      rewrite Hs, Hc.
    - rewrite Hh. simpl. repeat split; intros; discriminate.
    - rewrite (live_valid _ Hl). repeat split; auto. }
  destruct (Hsigns s Hreach) as (H1 & H2 & H3).
  repeat split; try apply H1; try apply H2; try exact H3.
  - apply process_returns_head in H as (Hq' & _). rewrite Hq'. reflexivity.
  - pose proof (reach_process in_turn s U closure u u' deadline q' Hreach H)
      as Hreach'.
    destruct (Hsigns _ Hreach') as (_ & H2' & _). simpl in H2'.
    apply process_returns_head in H as (Hq' & _).
    assert (Hst : stateFlag q' = stateFlag (queue s))
      by (rewrite Hq'; reflexivity).
    destruct (valid (queueHead q')) eqn:Hv', (valid (queueHead (queue s)))
      eqn:Hv; try reflexivity.
    + destruct H2' as [H2' _]. specialize (H2' eq_refl).
      rewrite Hst in H2'. destruct H2 as [_ H2]. now apply H2 in H2'.
    + destruct H2 as [H2 _]. specialize (H2 eq_refl).
      rewrite <- Hst in H2. destruct H2' as [_ H2']. now apply H2' in H2.
Qed.

(** ** Batches are never empty and never stamped ahead of the clock *)

Lemma well_stamped_later : forall clock clock' (f : Future),
  clock <= clock' -> well_stamped clock f -> well_stamped clock' f.
Proof.
  intros clock clock' f Hle.
  induction f as [| | next IH events | next IH events ts | e]; simpl; auto.
  - intros [H1 H2]. auto.
  - intros (H1 & H2 & H3). repeat split; auto. lia.
Qed.

Lemma listenForEvents_step_well_stamped :
  forall carryOn clock a h count (f : Future) h' count' f',
  listenForEvents_step carryOn clock a h count f h' count' f' ->
  well_stamped clock f -> well_stamped clock f'.
Proof.
  intros carryOn clock a h count f h' count' f' Hstep.
  induction Hstep; simpl; auto.
  - intros [H1 H2]. repeat split; auto. lia.
  - intros (H1 & H2 & H3). auto.
  - intros [H1 H2]. auto.
Qed.

Lemma well_stamped_beyond : forall clock deadline (f : Future),
  well_stamped clock f -> well_stamped clock (beyond deadline f).
Proof.
  intros clock deadline f.
  induction f as [| | next IH events | next IH events ts | e]; simpl; auto.
  destruct (ts >? deadline); simpl; auto.
  intros (_ & _ & H). auto.
Qed.

Lemma well_stamped_batches : forall clock (f : Future),
  well_stamped clock f ->
  Forall (fun b => fst b <> [] /\ snd b <= clock) (batches f).
Proof.
  intros clock f.
  induction f as [| | next IH events | next IH events ts | e]; simpl; auto.
  - intros [_ H]. auto.
  - intros (H1 & H2 & H3). constructor; auto.
Qed.

Lemma reachable_well_stamped : forall in_turn (s : System Event),
  reachable in_turn s -> well_stamped (clock s) (queueHead (queue s)).
Proof.
  intros in_turn s Hreach.
  induction Hreach as
    [ t0
    | s n Hreach IH
    | s cell Hreach IH
    | s a h' count' head' Hreach IH Hstep Hturn
    | s q' Hreach IH Hcall
    | s q' Hreach IH Hcall
    | s U closure u u' deadline q' Hreach IH Hcall ]; simpl; auto.
  - apply well_stamped_later with (clock := clock s); [lia | assumption].
  - eapply listenForEvents_step_well_stamped; eauto.
  - unfold start, startInternal in Hcall.
    destruct (stateFlag (queue s)); simpl in Hcall; inversion Hcall; exact I.
  - unfold stop in Hcall. simpl in Hcall. inversion Hcall. exact I.
  - apply process_returns_head in Hcall as (_ & _ & [Hh | [Hh _]]);
      rewrite Hh; [now apply well_stamped_beyond | exact I].
Qed.

Lemma nonempty_batches_deliver :
  forall clock (bs : list (EventList Event * TimePoint)),
  Forall (fun b => fst b <> [] /\ snd b <= clock) bs ->
  (List.length bs <= List.length (deliveries bs))%nat.
Proof.
  intros clock bs Hall. unfold deliveries.
  induction Hall as [| [events ts] bs [Hne _] _ IH]; simpl; [lia |].
  rewrite length_app, length_map.
  destruct events; [contradiction | simpl; lia].
Qed.

(** X6. In every state of a running program, whatever the interleaving of
    the listener tasks, every batch of the chain holds at least one event and
    carries a time stamp that is not later than the clock.  So every batch
    that [process] consumes gives at least one call of the closure. *)
Theorem batches_are_nonempty_and_not_ahead :
  forall in_turn (s : System Event),
  reachable in_turn s ->
  Forall (fun b => fst b <> [] /\ snd b <= clock s)
         (batches (queueHead (queue s))) /\
  (forall deadline,
     (List.length (due deadline (queueHead (queue s))) <=
      List.length (deliveries (due deadline (queueHead (queue s)))))%nat).
Proof.
  intros in_turn s Hreach.
  pose proof (well_stamped_batches _ _ (reachable_well_stamped _ _ Hreach))
    as Hall.
  split; [exact Hall |].
  intro deadline.
  pose proof (chain_is_due_then_beyond deadline (queueHead (queue s))) as Hch.
  apply (f_equal batches) in Hch. rewrite batches_of_chain in Hch.
  rewrite Hch in Hall. apply Forall_app in Hall as [Hdue _].
  exact (nonempty_batches_deliver _ _ Hdue).
Qed.

End ChainShape.

(** * Further properties of the cycle scheduler *)

Lemma newDeadline_stored : forall (w : World) (t : Timing),
  resyncs w t = false \/ cycleTimesError w = 0 ->
  g_previousDeadline (timing_after (newDeadline w t)) =
  result (newDeadline w t).
Proof.
  intros [last ds err period frames rate] [cycle previous count] H.
  jack_unfold.
  destruct ds as [| d1 [| d2 [| d3 ds]]]; simpl in *; destruct H as [H | H];
    subst; simpl in *; split_ifs; by_arithmetic.
Qed.

Lemma fast_path_result : forall (w : World) (t : Timing),
  resyncs w t = false ->
  result (newDeadline w t) = g_previousDeadline t + g_cycleLength t /\
  g_cycleLength (timing_after (newDeadline w t)) = g_cycleLength t /\
  g_resetTimingCount (timing_after (newDeadline w t)) = g_resetTimingCount t.
Proof.
  intros [last ds err period frames rate] [cycle previous count] H.
  jack_unfold.
  destruct ds as [| d1 [| d2 [| d3 ds]]]; simpl in *; split_ifs;
    try discriminate; repeat split; reflexivity.
Qed.

(** X7. Unless the resync fails, [newDeadline] stores in
    [g_previousDeadline] the value it returns, as its comment says, and that
    value is strictly earlier than the last clock reading of the call: only a
    failed resync returns the clock reading itself. *)
Theorem newDeadline_stores_what_it_returns :
  forall (w : World) (t : Timing),
  resyncs w t = false \/ cycleTimesError w = 0 ->
  g_previousDeadline (timing_after (newDeadline w t)) =
    result (newDeadline w t) /\
  result (newDeadline w t) < lastReading (world_after (newDeadline w t)).
Proof.
  intros w t H. split; [now apply newDeadline_stored |].
  destruct w as [last ds err period frames rate].
  destruct t as [cycle previous count].
  pose proof (frames2duration_nonneg rate frames) as Hframes.
  pose proof jitter_positive as Hjitter.
  jack_unfold.
  destruct ds as [| d1 [| d2 [| d3 ds]]]; simpl in *; destruct H as [H | H];
    subst; simpl in *; split_ifs; by_arithmetic.
Qed.

Lemma steady_resync :
  forall (t : TimePoint) (period : SysTimeUnits) (frames : N)
         (rate : positive) (timing : Timing),
  resyncs (steadyWorld t period frames rate) timing = true ->
  timing_after (newDeadline (steadyWorld t period frames rate) timing) =
  {| g_cycleLength := period;
     g_previousDeadline :=
       t - frames2duration rate frames - JITTER_COMPENSATION;
     g_resetTimingCount := wrap_int (g_resetTimingCount timing + 1) |}.
Proof.
  intros t period frames rate [cycle previous count].
  unfold steadyWorld. jack_unfold.
  destruct (previous + cycle >=? t); simpl; [reflexivity |].
  destruct (previous + cycle <? t - cycle - JITTER_COMPENSATION); simpl;
    [reflexivity | discriminate].
Qed.

(** X8. After a resync that succeeds, the call that comes exactly one period
    later takes the fast path if and only if the frames since the cycle start
    that the server reported at the resync last no longer than one period. *)
Theorem next_cycle_is_fast_iff_frames_fit :
  forall (t : TimePoint) (period : SysTimeUnits) (frames frames' : N)
         (rate rate' : positive) (timing : Timing),
  resyncs (steadyWorld t period frames rate) timing = true ->
  (resyncs (steadyWorld (t + period) period frames' rate')
     (timing_after (newDeadline (steadyWorld t period frames rate) timing))
   = false
   <-> frames2duration rate frames <= period).
Proof.
  intros t period frames frames' rate rate' timing H.
  rewrite (steady_resync _ _ _ _ _ H).
  pose proof (frames2duration_nonneg rate frames) as Hframes.
  pose proof jitter_positive as Hjitter.
  remember (frames2duration rate frames) as duration eqn:Hduration.
  clear H Hduration. unfold steadyWorld. jack_unfold.
  split_ifs; split; intro; by_arithmetic.
Qed.

Section RegularDeadlines.

Variables (t0 : TimePoint) (period : SysTimeUnits).
Variables (frames : nat -> N) (rate : positive).

Hypothesis frames_within_period :
  forall k, frames2duration rate (frames k) <= period.

(** X9. In a session of regular cycles in which the reported frames never
    last longer than one period, the deadlines handed to the callback after
    the resync advance by exactly one period per cycle. *)
Theorem regular_deadlines_advance_by_one_period :
  forall j n,
  (j <= n)%nat ->
  resyncs (regularWorld t0 period frames rate j)
          (timingBefore t0 period frames rate j) = true ->
  deadlineOf t0 period frames rate (S n) =
  deadlineOf t0 period frames rate n + period.
Proof.
  intros j n Hjn Hresync.
  destruct (regular_cycles_invariant t0 period frames rate
              frames_within_period (S n)) as [[_ Hfast] | Hsettled].
  - rewrite Hfast in Hresync by lia. discriminate.
  - unfold deadlineOf.
    destruct (settled_timing_step t0 period frames rate (S n) _ Hsettled)
      as [Hfastpath _].
    apply fast_path_result in Hfastpath as [Hresult _]. rewrite Hresult.
    destruct Hsettled as (Hcycle & _). rewrite Hcycle. f_equal.
    rewrite timingBefore_succ. apply newDeadline_stored. right. reflexivity.
Qed.

End RegularDeadlines.

(** * Properties of the client's life cycle *)

Section ClientLifeCycle.

Import Lifecycle.

Context {U : Type}.

Local Abbreviation Client := (Lifecycle.Client U).

Lemma client_handle_iff_open : forall c : Client,
  client_reachable c ->
  (g_hJackClient c = None <-> g_stateFlag c = closed).
Proof.
  intros c Hreach.
  induction Hreach as
    [ | c server name flag c' Hreach IH Hcall
      | c derr cerr Hreach IH
      | c derr Hreach IH
      | c w aerr c' Hreach IH Hcall
      | c cb rerr c' Hreach IH Hcall
      | c n w u status w' c' u' Hreach IH Hcall ].
  - split; reflexivity.
  - unfold open in Hcall.
    destruct (g_stateFlag c) eqn:Hs;
      [destruct (server name flag) |..]; simpl in Hcall;
      inversion Hcall; subst; simpl; try rewrite Hs;
      try (split; intro; (reflexivity || discriminate)); exact IH.
  - unfold close, stopInternal.
    destruct (g_stateFlag c) eqn:Hs; simpl; try rewrite Hs;
      try (split; reflexivity); exact IH.
  - unfold stop, stopInternal.
    destruct (g_stateFlag c) eqn:Hs; simpl; try rewrite Hs; try exact IH.
    split; intro H; [apply IH in H |]; discriminate.
  - unfold activate in Hcall.
    destruct (g_stateFlag c) eqn:Hs; [| destruct (g_hJackClient c) eqn:Hh |];
      simpl in Hcall; try discriminate;
      try (destruct (negb (aerr =? 0)); simpl in Hcall);
      inversion Hcall; subst; simpl; try rewrite Hs; try rewrite Hh;
      try (split; intro; discriminate); exact IH.
  - unfold registerProcessCallback in Hcall.
    destruct (g_stateFlag c) eqn:Hs; [| destruct (g_hJackClient c) eqn:Hh |];
      simpl in Hcall; try discriminate;
      try (destruct (negb (rerr =? 0)); simpl in Hcall);
      inversion Hcall; subst; simpl; try rewrite Hs; try rewrite Hh;
      try (split; intro; discriminate); exact IH.
  - unfold jackInternalCallback in Hcall.
    destruct (g_customCallback c) as [cb |].
    + destruct (newDeadline w (g_timing c)) as [[d w1] t1].
      destruct (cb n d u) as [st u1].
      inversion Hcall; subst; simpl. exact IH.
    + inversion Hcall; subst. exact IH.
Qed.

(** X10. In every state that the client reaches, [g_hJackClient] is null
    exactly when the state is [closed].  So the calls that hand the handle to
    the JACK library without testing it ([jack_activate] in [activate],
    [jack_set_process_callback] in [registerProcessCallback],
    [jack_get_client_name] in [deviceName]) never hand it a null handle. *)
Theorem handle_is_null_only_when_closed :
  forall c : Client,
  client_reachable c ->
  (g_hJackClient c = None <-> state c = closed) /\
  (forall w activateError, activate w activateError c <> NullHandle) /\
  (forall callback registerError,
     registerProcessCallback callback registerError c <> NullHandle) /\
  deviceName c <> NullHandle.
Proof.
  intros c Hreach.
  pose proof (client_handle_iff_open c Hreach) as Hiff.
  split; [exact Hiff |].
  assert (Hsome : g_stateFlag c <> closed -> g_hJackClient c <> None).
  { intros Hs Hh. apply Hs. now apply Hiff. }
  repeat split.
  - intros w aerr. unfold activate.
    destruct (g_stateFlag c) eqn:Hs; try discriminate.
    destruct (g_hJackClient c); [| exfalso; now apply Hsome].
    destruct (negb (aerr =? 0)); discriminate.
  - intros cb rerr. unfold registerProcessCallback.
    destruct (g_stateFlag c) eqn:Hs; try discriminate.
    destruct (g_hJackClient c); [| exfalso; now apply Hsome].
    destruct (negb (rerr =? 0)); discriminate.
  - unfold deviceName, clientNameInternal.
    destruct (g_stateFlag c) eqn:Hs; try discriminate;
      (destruct (g_hJackClient c); [discriminate | exfalso; now apply Hsome]).
Qed.

(** X11. An operation that throws leaves the state and the handle of the
    client as they were.  Two side effects survive a [ServerException]
    all the same: [activate] has already invalidated the timing, and
    [registerProcessCallback] has already stored the callback. *)
Theorem failed_operation_keeps_the_state :
  forall c : Client,
  client_reachable c ->
  (forall server name noStartServer e c',
     open server name noStartServer c = Raises e c' ->
     state c' = state c /\ g_hJackClient c' = g_hJackClient c) /\
  (forall w activateError e c',
     activate w activateError c = Raises e c' ->
     state c' = state c /\ g_hJackClient c' = g_hJackClient c /\
     g_customCallback c' = g_customCallback c /\
     forall what, e = ServerException what ->
                  g_timing c' = timingAtActivation) /\
  (forall callback registerError e c',
     registerProcessCallback callback registerError c = Raises e c' ->
     state c' = state c /\ g_hJackClient c' = g_hJackClient c /\
     g_timing c' = g_timing c /\
     forall what, e = ServerException what ->
                  g_customCallback c' = Some callback).
Proof.
  intros c Hreach.
  pose proof (client_handle_iff_open c Hreach) as Hiff.
  unfold state, stateInternal. split; [| split].
  - intros server name flag e c' H. unfold open in H.
    destruct (g_stateFlag c) eqn:Hs;
      [destruct (server name flag) |..]; inversion H; subst; simpl;
      try rewrite Hs; auto.
    split; [reflexivity |]. symmetry. now apply Hiff.
  - intros w aerr e c' H. unfold activate in H.
    destruct (g_stateFlag c) eqn:Hs; [| destruct (g_hJackClient c) eqn:Hh |];
      try discriminate;
      try (destruct (negb (aerr =? 0)));
      inversion H; subst; simpl; try rewrite Hs; try rewrite Hh;
      repeat split; auto; intros; discriminate.
  - intros cb rerr e c' H. unfold registerProcessCallback in H.
    destruct (g_stateFlag c) eqn:Hs; [| destruct (g_hJackClient c) eqn:Hh |];
      try discriminate;
      try (destruct (negb (rerr =? 0)));
      inversion H; subst; simpl; try rewrite Hs; try rewrite Hh;
      repeat split; auto; intros; discriminate.
Qed.

(** X12. From a closed client, with a server that answers, [open], [activate],
    [stop] and [close] in this order pass through the states idle, running,
    idle and closed, whatever [jack_deactivate] and [jack_client_close]
    report.  While open the client bears the name the server gave it.  At the
    end the handle is null, the timing is invalidated and the registered
    callback is still the one from before: [close] does not clear it. *)
Theorem open_activate_stop_close :
  forall (c : Client) server name noStartServer h w
         deactivateError deactivateError' closeError,
  state c = closed ->
  server name noStartServer = Some h ->
  exists c1 c2,
    open server name noStartServer c = Done tt c1 /\
    state c1 = idle /\
    deviceName c1 = Done (jack_get_client_name h) c1 /\
    activate w 0 c1 = Done tt c2 /\
    state c2 = running /\
    state (stop deactivateError c2) = idle /\
    close deactivateError' closeError (stop deactivateError c2) =
      {| g_hJackClient := None; g_stateFlag := closed;
         g_customCallback := g_customCallback c;
         g_timing := timingAtActivation |}.
Proof.
  intros c server name flag h w derr derr' cerr Hs Hserver.
  unfold state, stateInternal in Hs.
  unfold open. rewrite Hs, Hserver.
  eexists. eexists. split; [reflexivity |].
  repeat split.
Qed.

Lemma first_resync : forall w : World,
  cycleTimesError w = 0 ->
  JITTER_COMPENSATION < firstReading w ->
  timing_after (newDeadline w timingAtActivation) =
    {| g_cycleLength := cyclePeriod w;
       g_previousDeadline := result (newDeadline w timingAtActivation);
       g_resetTimingCount := 1 |} /\
  result (newDeadline w timingAtActivation) =
    lastReading (world_after (newDeadline w timingAtActivation))
    - frames2duration (sampleRate w) (framesSinceCycleStart w)
    - JITTER_COMPENSATION.
Proof.
  intros [last ds err period frames rate] Herr Hlate.
  pose proof jitter_positive as Hjitter.
  simpl in Herr. subst err. jack_unfold.
  destruct ds as [| d1 [| d2 [| d3 ds]]]; simpl in *; split_ifs;
    try (split; reflexivity); exfalso; reflect_comparisons; lia.
Qed.

(** X13. The first cycle after a successful [activate], with a registered
    callback, a server that gives the cycle times and a clock that reads later
    than [JITTER_COMPENSATION], resyncs: the callback receives the deadline
    [now() - frames2duration(frames since cycle start) - JITTER_COMPENSATION],
    its return value is the return value of [jackInternalCallback], and
    afterwards the cycle length is the period of the server, the previous
    deadline is that deadline and the reset counter is 1. *)
Theorem first_cycle_after_activate_resyncs :
  forall (c c1 : Client) callback w0 w nFrames u,
  g_customCallback c = Some callback ->
  activate w0 0 c = Done tt c1 ->
  cycleTimesError w = 0 ->
  JITTER_COMPENSATION < firstReading w ->
  exists w' c2,
    let deadline :=
      lastReading w'
      - frames2duration (sampleRate w) (framesSinceCycleStart w)
      - JITTER_COMPENSATION in
    jackInternalCallback nFrames w c1 u =
      (fst (callback nFrames deadline u), w', c2,
       snd (callback nFrames deadline u)) /\
    state c2 = running /\
    g_timing c2 =
      {| g_cycleLength := cyclePeriod w; g_previousDeadline := deadline;
         g_resetTimingCount := 1 |}.
Proof.
  intros c c1 cb w0 w n u Hcb Hact Herr Hlate.
  unfold activate in Hact.
  destruct (g_stateFlag c) eqn:Hs; try discriminate.
  destruct (g_hJackClient c) eqn:Hh; try discriminate.
  simpl in Hact. inversion Hact; subst c1; clear Hact.
  destruct (first_resync w Herr Hlate) as [Htiming Hresult].
  unfold jackInternalCallback. cbn [g_customCallback g_timing].
  rewrite Hcb.
  change (timing_after (invalidateTiming w0 (g_timing c)))
    with timingAtActivation.
  fold timingAtActivation.
  unfold result, world_after, timing_after in *.
  destruct (newDeadline w timingAtActivation) as [[d w1] t1].
  simpl in Htiming, Hresult. subst t1.
  exists w1. eexists. cbv zeta. rewrite <- Hresult.
  destruct (cb n d u) as [st u1]. simpl.
  split; [reflexivity |]. split; reflexivity.
Qed.

End ClientLifeCycle.

(** * The further properties in the scenarios *)

(** X1 on three batches: draining up to 1 and then up to 3 is draining up
    to 3. *)
Lemma process_twice_is_process_once_witness :
  process 3 log_call
    (Scenario.listening true running 2
       (Batch (Batch Polling [67] 5) [62; 64] 2))
    [(60, 1)] =
  process (Z.max 1 3) log_call Scenario.three_batches [].
Proof.
  exact (process_twice_is_process_once _ log_call 1 3 Scenario.three_batches
           _ [] _ eq_refl).
Defined.

(** X2 with two notes pulled before the error -19. *)
Example retrieveEvents_drops_events_on_error :
  retrieveEvents [Incoming 60; Incoming 64; Failure (-19); Incoming 67] =
  Thrown (runtime_error "ALSA problem") [Incoming 67].
Proof. reflexivity. Qed.

(** X3 before the first [start]. *)
Lemma start_twice_stops_the_queue_witness :
  start (queue Scenario.idle) = Returned tt (queue Scenario.started) /\
  exists what,
    start (queue Scenario.started) =
    Thrown (runtime_error what) initialQueueState.
Proof.
  destruct (start_twice_stops_the_queue false Scenario.idle
              (idle_reachable false)) as (Hfirst & _ & Hsecond).
  split; [exact (Hfirst eq_refl) |].
  exact (Hsecond _ (Hfirst eq_refl)).
Defined.

(** X4 with two batches in the queue. *)
Lemma counter_counts_the_batches_witness :
  getCurrentEventBatchCount (queue Scenario.overtaken) =
    Z.of_nat (List.length (batches (queueHead (queue Scenario.overtaken)))) /\
  0 <= getCurrentEventBatchCount (queue Scenario.overtaken).
Proof.
  destruct (counter_counts_the_batches false Scenario.overtaken
              overtaken_reachable) as (Hcount & Hnonneg & _).
  split; assumption.
Defined.

(** X5 with two batches in the queue. *)
Lemma running_queue_keeps_its_head_witness :
  (carryOnFlag (queue Scenario.two_queued) = true <->
   getState (queue Scenario.two_queued) = running) /\
  (valid (queueHead (queue Scenario.two_queued)) = true <->
   getState (queue Scenario.two_queued) = running) /\
  live (queueHead (queue Scenario.two_queued)) = true.
Proof.
  destruct (running_queue_keeps_its_head false Scenario.two_queued
              (two_queued_reachable false)) as (Hcarry & Hvalid & Hlive & _).
  split; [exact Hcarry |]. split; [exact Hvalid |].
  exact (Hlive eq_refl).
Defined.

(** X6 where one task has overtaken the other. *)
Lemma batches_are_nonempty_and_not_ahead_witness :
  Forall (fun b => fst b <> [] /\ snd b <= clock Scenario.overtaken)
         (batches (queueHead (queue Scenario.overtaken))).
Proof.
  exact (proj1 (batches_are_nonempty_and_not_ahead false Scenario.overtaken
                  overtaken_reachable)).
Defined.

(** X7 in the first cycle of a session. *)
Lemma newDeadline_stores_what_it_returns_witness :
  g_previousDeadline
    (timing_after (newDeadline Scenario.firstCycle timingAtActivation)) =
    result (newDeadline Scenario.firstCycle timingAtActivation) /\
  result (newDeadline Scenario.firstCycle timingAtActivation) <
    lastReading (world_after (newDeadline Scenario.firstCycle
                                timingAtActivation)).
Proof.
  exact (newDeadline_stores_what_it_returns Scenario.firstCycle
           timingAtActivation (or_intror eq_refl)).
Defined.

(** X8 with 24 frames, half a cycle of 1 ms. *)
Lemma next_cycle_is_fast_iff_frames_fit_witness :
  resyncs (steadyWorld (1000000000 + 1000000) 1000000 0 48000)
    (timing_after (newDeadline (steadyWorld 1000000000 1000000 24 48000)
                     timingAtActivation)) = false
  <-> frames2duration 48000 24 <= 1000000.
Proof.
  exact (next_cycle_is_fast_iff_frames_fit 1000000000 1000000 24 0
           48000 48000 timingAtActivation eq_refl).
Defined.

(** X9 between the second and the third cycle. *)
Lemma regular_deadlines_advance_by_one_period_witness :
  deadlineOf 1000000000 1000000 Scenario.halfwayFrames 48000 2 =
  deadlineOf 1000000000 1000000 Scenario.halfwayFrames 48000 1 + 1000000.
Proof.
  assert (Hframes : forall k,
            frames2duration 48000 (Scenario.halfwayFrames k) <= 1000000)
    by (intro k; vm_compute; discriminate).
  apply (regular_deadlines_advance_by_one_period 1000000000 1000000
           Scenario.halfwayFrames 48000 Hframes 0%nat 1%nat).
  - repeat constructor.
  - reflexivity.
Defined.

Lemma registered_reachable :
  Lifecycle.client_reachable Scenario.registered.
Proof.
  assert (Hopened : Lifecycle.client_reachable
            ({| Lifecycle.g_hJackClient :=
                  Some (Lifecycle.mkJackClient "bridge");
                Lifecycle.g_stateFlag := Lifecycle.idle;
                Lifecycle.g_customCallback := None;
                Lifecycle.g_timing := timingAtActivation |}
             : Lifecycle.Client (list TimePoint))).
  { refine (Lifecycle.reach_open Lifecycle.initialClient
              Scenario.answeringServer "bridge" false _
              Lifecycle.reach_initialClient _).
    reflexivity. }
  refine (Lifecycle.reach_register _ Scenario.logDeadline 0 _ Hopened _).
  reflexivity.
Qed.

(** X10 on the opened client. *)
Lemma handle_is_null_only_when_closed_witness :
  Lifecycle.deviceName Scenario.registered <> Lifecycle.NullHandle /\
  Lifecycle.activate Scenario.firstCycle 0 Scenario.registered
    <> Lifecycle.NullHandle.
Proof.
  destruct (handle_is_null_only_when_closed Scenario.registered
              registered_reachable) as (_ & Hactivate & _ & Hname).
  split; [exact Hname | exact (Hactivate Scenario.firstCycle 0)].
Defined.

(** X11 when [jack_activate] fails with -1. *)
Lemma failed_operation_keeps_the_state_witness :
  exists e c',
    Lifecycle.activate Scenario.firstCycle (-1) Scenario.registered =
      Lifecycle.Raises e c' /\
    Lifecycle.state c' = Lifecycle.state Scenario.registered /\
    Lifecycle.g_hJackClient c' =
      Lifecycle.g_hJackClient Scenario.registered.
Proof.
  destruct (failed_operation_keeps_the_state Scenario.registered
              registered_reachable) as (_ & Hactivate & _).
  eexists. eexists. split; [reflexivity |].
  destruct (Hactivate Scenario.firstCycle (-1) _ _ eq_refl)
    as (Hstate & Hhandle & _).
  split; assumption.
Defined.

(** X12 from the initial state of the client. *)
Lemma open_activate_stop_close_witness :
  exists c1 c2 : Lifecycle.Client (list TimePoint),
    Lifecycle.open Scenario.answeringServer "bridge" false
      Lifecycle.initialClient = Lifecycle.Done tt c1 /\
    Lifecycle.state c1 = Lifecycle.idle /\
    Lifecycle.deviceName c1 = Lifecycle.Done "bridge"%string c1 /\
    Lifecycle.activate Scenario.firstCycle 0 c1 = Lifecycle.Done tt c2 /\
    Lifecycle.state c2 = Lifecycle.running /\
    Lifecycle.state (Lifecycle.stop 0 c2) = Lifecycle.idle /\
    Lifecycle.close 0 0 (Lifecycle.stop 0 c2) = Lifecycle.initialClient.
Proof.
  exact (open_activate_stop_close Lifecycle.initialClient
           Scenario.answeringServer "bridge" false
           (Lifecycle.mkJackClient "bridge") Scenario.firstCycle 0 0 0
           eq_refl eq_refl).
Defined.

(** X13 on the client of the scenario, in a first cycle one second after
    the epoch with 24 frames (0.5 ms) since the cycle start. *)
Lemma first_cycle_after_activate_resyncs_witness :
  exists w' (c2 : Lifecycle.Client (list TimePoint)),
    let deadline :=
      lastReading w'
      - frames2duration (sampleRate Scenario.firstCycle)
          (framesSinceCycleStart Scenario.firstCycle)
      - JITTER_COMPENSATION in
    Lifecycle.jackInternalCallback 48 Scenario.firstCycle
      Scenario.activated [] =
      (fst (Scenario.logDeadline 48%N deadline []), w', c2,
       snd (Scenario.logDeadline 48%N deadline [])) /\
    Lifecycle.state c2 = Lifecycle.running /\
    Lifecycle.g_timing c2 =
      {| g_cycleLength := cyclePeriod Scenario.firstCycle;
         g_previousDeadline := deadline;
         g_resetTimingCount := 1 |}.
Proof.
  exact (first_cycle_after_activate_resyncs Scenario.registered
           Scenario.activated Scenario.logDeadline Scenario.firstCycle
           Scenario.firstCycle 48%N [] eq_refl eq_refl eq_refl eq_refl).
Defined.

(** The same cycle computed: the callback is handed the deadline 999 ms. *)
Example first_cycle_deadline :
  Lifecycle.jackInternalCallback 48 Scenario.firstCycle Scenario.activated []
  = (0, Scenario.firstCycle,
     {| Lifecycle.g_hJackClient := Some (Lifecycle.mkJackClient "bridge");
        Lifecycle.g_stateFlag := Lifecycle.running;
        Lifecycle.g_customCallback := Some Scenario.logDeadline;
        Lifecycle.g_timing :=
          {| g_cycleLength := 1000000; g_previousDeadline := 999000000;
             g_resetTimingCount := 1 |} |},
     [999000000]).
Proof. reflexivity. Qed.
